(** * Seam carving: a shallow embedding of 2024201062_A1_Q4.cpp

    The program resizes an image by removing minimum-energy seams.  The
    embedding follows the four functions of the source (energyCal,
    seamSearch, removeVerSeam, seamCar) and its main.

    - An [int] is a [Z].  Every integer the program computes is an index
      into a matrix, an index plus or minus one, or a value read from the
      user, so no arithmetic leaves the range of [int].
    - A [double] is a primitive binary64 [float].
    - A [cv::Mat] is a header (rows, cols) over a store of cells; a cell
      that was never written holds nothing.  Reading outside the header's
      bounds, or reading a cell that holds nothing, is undefined behaviour
      in the source and [None] here.
    - The functions of OpenCV that the program calls (cvtColor, minMaxLoc,
      transpose, imread, imwrite) are not part of the repository; they are
      modelled from what the specification says of them. *)

From Stdlib Require Import ZArith Lia Floats.
From stdpp Require Import base option list strings.

Local Open Scope Z_scope.

(** ** Counted loops *)

(** [for (int i = lo; i < hi; i++) body], as [hi - lo] runs of the body
    over the loop state; a failing body fails the loop. *)
Fixpoint for_up {St : Type} (n : nat) (i : Z) (body : Z → St → option St) (s : St)
  : option St :=
  match n with
  | O => Some s
  | S n' => s' ← body i s; for_up n' (i + 1) body s'
  end.

Definition for_range {St : Type} (lo hi : Z) (body : Z → St → option St) (s : St)
  : option St :=
  for_up (Z.to_nat (hi - lo)) lo body s.

(** [for (int i = hi; i >= 0; i--) body]. *)
Fixpoint for_down {St : Type} (n : nat) (i : Z) (body : Z → St → option St) (s : St)
  : option St :=
  match n with
  | O => Some s
  | S n' => s' ← body i s; for_down n' (i - 1) body s'
  end.

Definition for_downto0 {St : Type} (hi : Z) (body : Z → St → option St) (s : St)
  : option St :=
  for_down (Z.to_nat (hi + 1)) hi body s.

(** ** Matrices *)

Record Mat (A : Type) : Type := mkMat {
  rows : Z;
  cols : Z;
  cell : Z → Z → option A
}.
Arguments mkMat {A} _ _ _.
Arguments rows {A} _.
Arguments cols {A} _.
Arguments cell {A} _ _ _.

Section Matrices.
Context {A : Type}.

Definition inside (m : Mat A) (i j : Z) : bool :=
  (0 <=? i) && (i <? rows m) && (0 <=? j) && (j <? cols m).

(** [m.at<T>(i, j)] read. *)
Definition Mat_at (m : Mat A) (i j : Z) : option A :=
  if inside m i j then cell m i j else None.

(** [m.at<T>(i, j) = v]. *)
Definition Mat_set (m : Mat A) (i j : Z) (v : A) : option (Mat A) :=
  if inside m i j
  then Some (mkMat (rows m) (cols m)
               (λ i' j', if (i' =? i) && (j' =? j) then Some v else cell m i' j'))
  else None.

(** [Mat m(r, c, type)]: allocated, nothing written. *)
Definition Mat_new (r c : Z) : Mat A := mkMat r c (λ _ _, None).

(** [Mat::zeros(r, c, type)], and more generally a matrix of one value. *)
Definition Mat_fill (r c : Z) (v : A) : Mat A := mkMat r c (λ _ _, Some v).

(** [m.clone()]: a deep copy is the same value. *)
Definition clone (m : Mat A) : Mat A := m.

(** [m.empty()]. *)
Definition Mat_empty (m : Mat A) : bool := (rows m <=? 0) || (cols m <=? 0).

(** Every cell inside the bounds has been written. *)
Definition Mat_full (m : Mat A) : Prop :=
  ∀ i j, 0 ≤ i < rows m → 0 ≤ j < cols m → is_Some (cell m i j).

(** A matrix given by its rows, for concrete images. *)
Definition Mat_of_rows (l : list (list A)) : Mat A :=
  mkMat (Z.of_nat (length l)) (Z.of_nat (length (default [] (head l))))
    (λ i j, if (0 <=? i) && (0 <=? j)
            then row ← l !! Z.to_nat i; row !! Z.to_nat j
            else None).

(** The rows of a matrix, for reading results. *)
Definition Mat_to_rows (m : Mat A) : list (list (option A)) :=
  (λ i, (λ j, Mat_at m (Z.of_nat i) (Z.of_nat j)) <$> seq 0 (Z.to_nat (cols m)))
    <$> seq 0 (Z.to_nat (rows m)).

(** Modelled from the spec: the transpose primitive of the image library
    (cv::transpose), "a new image whose rows are the columns of the
    input, preserving per-pixel values". *)
Definition transpose (m : Mat A) : Mat A :=
  mkMat (cols m) (rows m) (λ i j, cell m j i).
End Matrices.

(** ** Pixels, luminance and floating point *)

(** [cv::Vec3b]: three 8-bit channels in blue, green, red order. *)
Record Vec3b : Type := mkVec3b { blue : Z; green : Z; red : Z }.

(** [(double)u] for an 8-bit [u]. *)
Definition to_double (u : Z) : float := PrimFloat.of_uint63 (Uint63.of_Z u).

(** [std::min(a, b)]: [(b < a) ? b : a]. *)
Definition fmin (a b : float) : float := if PrimFloat.ltb b a then b else a.

(** ** The seam buffer *)

(** [new int[n]]: [n] slots, none written yet.  A slot that was never
    written holds an indeterminate value, [None] here. *)
Abbreviation buffer := (list (option Z)).

Definition buf_new (n : Z) : buffer := replicate (Z.to_nat n) None.

(** [seam[i]] read: outside the allocation or before any write it is
    undefined. *)
Definition buf_get (b : buffer) (i : Z) : option Z :=
  if 0 <=? i then mjoin (b !! Z.to_nat i) else None.

(** [seam[i] = v]. *)
Definition buf_set (b : buffer) (i : Z) (v : Z) : option buffer :=
  if (0 <=? i) && (i <? Z.of_nat (length b))
  then Some (<[Z.to_nat i := Some v]> b)
  else None.

(** ** Outcomes of the driver and of main *)

(** What the process has done so far: the text sent to [cout] and the image
    written to [resizeImg.jpeg], if any. *)
Record world : Type := mkWorld {
  stdout : string;
  saved : option (Mat Vec3b)
}.

Definition print (s : string) (w : world) : world :=
  mkWorld (stdout w +:+ s) (saved w).

Definition newline : string := String (Ascii.ascii_of_nat 10) EmptyString.

Inductive outcome (A : Type) : Type :=
| Returns (a : A)        (* the call returns [a] *)
| Exits (code : Z)       (* [exit(code)] ended the process *)
| Fault                  (* undefined behaviour, or a library call refused its arguments *)
| NoFuel.                (* the model was given too few loop iterations *)
Arguments Returns {A} _.
Arguments Exits {A} _.
Arguments Fault {A}.
Arguments NoFuel {A}.

(** [while (cond) body], with at most [fuel] runs of the body. *)
Fixpoint while {St : Type} (fuel : nat) (cond : St → bool) (body : St → option St) (s : St)
  : outcome St :=
  if cond s then
    match fuel with
    | O => NoFuel
    | S fuel' =>
        match body s with
        | Some s' => while fuel' cond body s'
        | None => Fault
        end
    end
  else Returns s.

(** The state of a loop after [n] runs of its body. *)
Fixpoint after_runs {St : Type} (n : nat) (body : St → option St) (s : St) : option St :=
  match n with
  | O => Some s
  | S n' => s' ← body s; after_runs n' body s'
  end.

(** ** The program *)

Section Program.
(** The 8-bit luminance of one pixel.  The specification leaves the
    coefficients of the conversion open, so it is a parameter. *)
Variable bgr2gray : Vec3b → Z.

(** Modelled from the spec: the colour conversion of the image library
    (cv::cvtColor with COLOR_BGR2GRAY), "produce a grayscale buffer from a
    BGR color image": a buffer of the same dimensions, pixel by pixel. *)
Definition cvtColor (img : Mat Vec3b) : Mat Z :=
  mkMat (rows img) (cols img) (λ i j, bgr2gray <$> cell img i j).

Definition energyCal (img : Mat Vec3b) : option (Mat float) :=
  let gray := cvtColor img in
  let height := rows gray in
  let width := cols gray in
  let result := Mat_fill height width 0%float in
  for_range 0 height (λ y result,
    for_range 0 width (λ x result,
      grad_x ←
        (if (0 <? x) && (x <? width - 1) then
           a ← Mat_at gray y (x + 1); b ← Mat_at gray y (x - 1);
           Some (to_double a - to_double b)%float
         else if (x =? 0) && (1 <? width) then
           a ← Mat_at gray y (x + 1); b ← Mat_at gray y x;
           Some (to_double a - to_double b)%float
         else if (x =? width - 1) && (1 <? width) then
           a ← Mat_at gray y x; b ← Mat_at gray y (x - 1);
           Some (to_double a - to_double b)%float
         else Some 0%float);
      grad_y ←
        (if (0 <? y) && (y <? height - 1) then
           a ← Mat_at gray (y + 1) x; b ← Mat_at gray (y - 1) x;
           Some (to_double a - to_double b)%float
         else if (y =? 0) && (1 <? height) then
           a ← Mat_at gray (y + 1) x; b ← Mat_at gray y x;
           Some (to_double a - to_double b)%float
         else if (y =? height - 1) && (1 <? height) then
           a ← Mat_at gray y x; b ← Mat_at gray (y - 1) x;
           Some (to_double a - to_double b)%float
         else Some 0%float);
      Mat_set result y x (PrimFloat.sqrt (grad_x * grad_x + grad_y * grad_y)%float))
    result) result.

(** Lines 50-65 of seamSearch: the cumulative energy, accumulated in
    place in a copy of the energy field. *)
Definition cumulative (energy : Mat float) : option (Mat float) :=
  let rows := rows energy in
  let cols := cols energy in
  let cumulativeEnergy := clone energy in
  for_range 1 rows (λ i cumulativeEnergy,
    for_range 0 cols (λ j cumulativeEnergy,
      minEnergy ← Mat_at cumulativeEnergy (i - 1) j;
      minEnergy ← (if 0 <? j
                   then v ← Mat_at cumulativeEnergy (i - 1) (j - 1);
                        Some (fmin minEnergy v)
                   else Some minEnergy);
      minEnergy ← (if j <? cols - 1
                   then v ← Mat_at cumulativeEnergy (i - 1) (j + 1);
                        Some (fmin minEnergy v)
                   else Some minEnergy);
      old ← Mat_at cumulativeEnergy i j;
      Mat_set cumulativeEnergy i j (old + minEnergy)%float)
    cumulativeEnergy) cumulativeEnergy.

(** Modelled from the spec: the minimum search of the image library
    (cv::minMaxLoc on one row, of which the program keeps minLoc.x), the
    column minimizing the row where "ties are broken by choosing the
    smallest column index (the leftmost minimum)": a scan from the left
    that moves only to a strictly smaller value.  It refuses a row that
    does not exist or has no column. *)
Definition minLoc_x (m : Mat float) (r : Z) : option Z :=
  first ← Mat_at m r 0;
  best ← for_range 1 (cols m) (λ j (best : Z * float),
            v ← Mat_at m r j;
            Some (if (v <? best.2)%float then (j, v) else best))
          (0, first);
  Some best.1.

(** One step of the backtracking loop, lines 76-88. *)
Definition backtrack (cumulativeEnergy : Mat float) (cols : Z) (i : Z) (seam : buffer)
  : option buffer :=
  prev_col ← buf_get seam (i + 1);
  minE ← Mat_at cumulativeEnergy i prev_col;
  seam ← buf_set seam i prev_col;
  st ← (if 0 <? prev_col
        then v ← Mat_at cumulativeEnergy i (prev_col - 1);
             if (v <? minE)%float
             then seam ← buf_set seam i (prev_col - 1); Some (seam, v)
             else Some (seam, minE)
        else Some (seam, minE));
  let '(seam, minE) := st in
  if prev_col <? cols - 1
  then v ← Mat_at cumulativeEnergy i (prev_col + 1);
       if (v <? minE)%float
       then buf_set seam i (prev_col + 1)
       else Some seam
  else Some seam.

Definition seamSearch (energy : Mat float) : option buffer :=
  let rows := rows energy in
  let cols := cols energy in
  cumulativeEnergy ← cumulative energy;
  let seam := buf_new rows in
  minLoc ← minLoc_x cumulativeEnergy (rows - 1);
  seam ← buf_set seam (rows - 1) minLoc;
  for_downto0 (rows - 2) (backtrack cumulativeEnergy cols) seam.

Definition removeVerSeam (img : Mat Vec3b) (seam : buffer) : option (Mat Vec3b) :=
  let rows := rows img in
  let cols := cols img in
  if cols - 1 <? 0 then None (* a matrix of negative width is refused *)
  else
    let newImg := Mat_new rows (cols - 1) in
    for_range 0 rows (λ i newImg,
      seamCol ← buf_get seam i;
      newImg ← for_range 0 seamCol (λ j newImg,
                 p ← Mat_at img i j; Mat_set newImg i j p) newImg;
      for_range (seamCol + 1) cols (λ j newImg,
        p ← Mat_at img i j; Mat_set newImg i (j - 1) p) newImg)
    newImg.

(** The body of the first loop of seamCar, lines 127-130. *)
Definition width_step (img : Mat Vec3b) : option (Mat Vec3b) :=
  energy ← energyCal img;
  seam ← seamSearch energy;
  removeVerSeam img seam.

(** The body of the second loop of seamCar, lines 135-140. *)
Definition height_step (img : Mat Vec3b) : option (Mat Vec3b) :=
  let img := transpose img in
  energy ← energyCal img;
  seam ← seamSearch energy;
  img ← removeVerSeam img seam;
  Some (transpose img).

Definition seamCar (fuel : nat) (img : Mat Vec3b) (newWidth newHeight : Z) (w : world)
  : world * outcome (Mat Vec3b) :=
  if (rows img <=? newHeight) || (cols img <=? newWidth)
  then (print ("Invalid Input" +:+ newline) w, Exits 0)
  else
    match while fuel (λ img, newWidth <? cols img) width_step img with
    | Returns img =>
        (w, while fuel (λ img, newHeight <? rows img) height_step img)
    | other => (w, other)
    end.

(** [main]: [argv] are the arguments, [imread] and [imwrite] the codec of
    the image library, [cin_w] and [cin_h] the two integers read from
    standard input. *)
Definition main (fuel : nat) (argv : list string)
    (imread : string → Mat Vec3b) (imwrite : string → Mat Vec3b → bool)
    (cin_w cin_h : Z) : world * outcome Z :=
  let w := mkWorld EmptyString None in
  if Z.of_nat (length argv) <? 2
  then (print ("Usage: " +:+ default EmptyString (argv !! 0%nat)
                 +:+ " <image_path>" +:+ newline) w, Returns (-1))
  else
    let img := imread (default EmptyString (argv !! 1%nat)) in
    if Mat_empty img
    then (print ("Error: not found" +:+ newline) w, Returns (-1))
    else
      let w := print "Enter new width: " w in
      let newWidth := cin_w in
      let w := print "Enter new height: " w in
      let newHeight := cin_h in
      match seamCar fuel img newWidth newHeight w with
      | (w, Returns resizedImg) =>
          let isSuccess := imwrite "resizeImg.jpeg" resizedImg in
          if isSuccess
          then (mkWorld (stdout w) (Some resizedImg), Returns 0)
          else (print ("Error: not save that size" +:+ newline) w, Returns (-1))
      | (w, Exits code) => (w, Exits code)
      | (w, Fault) => (w, Fault)
      | (w, NoFuel) => (w, NoFuel)
      end.
End Program.

(** * The notions of the specification *)

(** ** The energy of a pixel *)

Section EnergySpec.
Variable bgr2gray : Vec3b → Z.

(** The grayscale value of a pixel of the image. *)
Definition pixel_gray (img : Mat Vec3b) (y x : Z) : Z :=
  default 0 (Mat_at (cvtColor bgr2gray img) y x).

(** The gradient as the specification words it (4.1): 0 on an axis of
    extent one, the forward difference at the first coordinate, the
    backward difference at the last, the central difference between. *)
Definition spec_gradient (g : Z → Z) (k n : Z) : float :=
  if (n =? 1)%Z then 0%float
  else if (k =? 0)%Z then (to_double (g (k + 1)%Z) - to_double (g k))%float
  else if (k =? n - 1)%Z then (to_double (g k) - to_double (g (k - 1)%Z))%float
  else (to_double (g (k + 1)%Z) - to_double (g (k - 1)%Z))%float.

(** The energy at column [x] of row [y] as the specification words it. *)
Definition spec_energy (img : Mat Vec3b) (x y : Z) : float :=
  let gx := spec_gradient (λ x', pixel_gray img y x') x (cols img) in
  let gy := spec_gradient (λ y', pixel_gray img y' x) y (rows img) in
  PrimFloat.sqrt (gx * gx + gy * gy)%float.

(** The cells of [result] written once the loops of energyCal have
    reached row [y], column [x]. *)
Definition energy_upto (img : Mat Vec3b) (y x : Z) (result : Mat float) : Prop :=
  rows result = rows img ∧ cols result = cols img ∧
  ∀ y' x', 0 ≤ y' < rows img → 0 ≤ x' < cols img →
           y' < y ∨ (y' = y ∧ x' < x) →
           cell result y' x' = Some (spec_energy img x' y').

End EnergySpec.

(** ** Cumulative energy, seams and their removal *)

(** The value of a cell, for statements; 0 where the matrix holds nothing. *)
Definition value (m : Mat float) (i j : Z) : float :=
  default 0%float (Mat_at m i j).

(** The least of the two or three cells above column [j], in the order the
    source takes them: straight, then left, then right. *)
Definition best_above (prev : Z → float) (j cols : Z) : float :=
  let best := prev j in
  let best := if 0 <? j then fmin best (prev (j - 1)) else best in
  if j <? cols - 1 then fmin best (prev (j + 1)) else best.

(** The cumulative energy as the specification words it, with one buffer
    per row: row 0 is the energy's row 0, and a later row is computed
    from the finished row above it. *)
Fixpoint spec_cum_row (e : Z → Z → float) (cols : Z) (i : nat) : Z → float :=
  match i with
  | O => e 0
  | S i' =>
      let above := spec_cum_row e cols i' in
      λ j, (e (Z.of_nat i) j + best_above above j cols)%float
  end.

Definition spec_cum (energy : Mat float) (i j : Z) : float :=
  spec_cum_row (value energy) (cols energy) (Z.to_nat i) j.

(** No value of row [r] is a NaN. *)
Definition row_ordered (m : Mat float) (r : Z) : Prop :=
  ∀ k, 0 ≤ k < cols m → is_nan (value m r k) = false.

(** Column [c] holds a least value of the row, and every column left of it
    holds a strictly greater one. *)
Definition leftmost_min (row : Z → float) (cols c : Z) : Prop :=
  (∀ k, 0 ≤ k < cols → PrimFloat.ltb (row k) (row c) = false) ∧
  (∀ k, 0 ≤ k < c → PrimFloat.ltb (row c) (row k) = true).

(** The neighbours of [prev] that exist, left before right. *)
Definition neighbours (prev cols : Z) : list Z :=
  (if 0 <? prev then [prev - 1] else []) ++
  (if prev <? cols - 1 then [prev + 1] else []).

(** The column chosen above [prev], as the specification words it (4.2):
    start from the straight column and go through the neighbours in
    order, moving only to a strictly smaller value. *)
Definition spec_choice (row : Z → float) (prev cols : Z) : Z :=
  foldl (λ best c, if PrimFloat.ltb (row c) (row best) then c else best)
    prev (neighbours prev cols).

(** The input column that output column [j] of a row comes from, when the
    row's seam entry is [c]. *)
Definition source_col (c j : Z) : Z := if j <? c then j else j + 1.

(** Every entry of the seam for rows [0 .. rows) is written and names a
    column of the image. *)
Definition seam_valid (seam : buffer) (rows cols : Z) : Prop :=
  ∀ i, 0 ≤ i < rows → ∃ c, buf_get seam i = Some c ∧ 0 ≤ c < cols.

(** ** The order of doubles *)

(** A non-NaN double placed in three integers compared left to right:
    the class (negative infinity, negative, zero, positive, positive
    infinity), then exponent and mantissa, mirrored for negatives. *)
Definition rank (f : spec_float) : Z * Z * Z :=
  match f with
  | S754_nan => (0, 0, 0)
  | S754_zero _ => (0, 0, 0)
  | S754_infinity true => (-2, 0, 0)
  | S754_infinity false => (2, 0, 0)
  | S754_finite true m e => (-1, - e, - Z.pos m)
  | S754_finite false m e => (1, e, Z.pos m)
  end.

Definition lex_lt (a b : Z * Z * Z) : Prop :=
  a.1.1 < b.1.1 ∨
  (a.1.1 = b.1.1 ∧ (a.1.2 < b.1.2 ∨ (a.1.2 = b.1.2 ∧ a.2 < b.2))).

(** ** Loop invariants *)

(** The state of the buffer once the loops have reached row [i], column
    [j]: finished cells hold the cumulative energy, the others still hold
    the energy. *)
Definition cum_upto (energy : Mat float) (i j : Z) (cum : Mat float) : Prop :=
  rows cum = rows energy ∧ cols cum = cols energy ∧
  ∀ i' j', 0 ≤ i' < rows energy → 0 ≤ j' < cols energy →
           cell cum i' j' =
             Some (if decide (i' < i ∨ (i' = i ∧ j' < j))
                   then spec_cum energy i' j' else value energy i' j').

(** The state of the scan of row [r] once it has reached column [j]: the
    best column so far, its value, nothing strictly smaller to its right,
    and only strictly greater values to its left when the row is ordered. *)
Definition scan_upto (m : Mat float) (r j : Z) (best : Z * float) : Prop :=
  0 ≤ best.1 < j ∧ best.2 = value m r best.1 ∧
  (∀ k, best.1 < k < j → PrimFloat.ltb (value m r k) best.2 = false) ∧
  (row_ordered m r → ∀ k, 0 ≤ k < best.1 → PrimFloat.ltb best.2 (value m r k) = true).

(** The entries of the seam below row [i] are written, lie inside the
    field, and each follows from the entry below it by the rule of the
    specification. *)
Definition seam_upto (cum : Mat float) (i : Z) (seam : buffer) : Prop :=
  length seam = Z.to_nat (rows cum) ∧
  ∀ k, i < k < rows cum →
       ∃ c, buf_get seam k = Some c ∧ 0 ≤ c < cols cum ∧
            (k < rows cum - 1 →
             ∃ p, buf_get seam (k + 1) = Some p ∧
                  c = spec_choice (value cum k) p (cols cum)).

(** The cells of the output written once the loops have reached row [i]
    and output column [n]. *)
Definition removed_upto (img : Mat Vec3b) (seam : buffer) (i n : Z) (newImg : Mat Vec3b)
  : Prop :=
  rows newImg = rows img ∧ cols newImg = cols img - 1 ∧
  ∀ i' j', 0 ≤ i' < rows img → 0 ≤ j' < cols img - 1 →
           i' < i ∨ (i' = i ∧ j' < n) →
           ∀ c, buf_get seam i' = Some c →
                cell newImg i' j' = cell img i' (source_col c j').

(** The state of the first loop of seamCar: the rows are those of the
    input and the width has not gone below the target. *)
Definition reducing_width (img0 : Mat Vec3b) (newWidth : Z) (img : Mat Vec3b) : Prop :=
  Mat_full img ∧ rows img = rows img0 ∧ newWidth ≤ cols img.

(** The state of the second loop: the width is the target and the height
    has not gone below its target. *)
Definition reducing_height (newWidth newHeight : Z) (img : Mat Vec3b) : Prop :=
  Mat_full img ∧ cols img = newWidth ∧ newHeight ≤ rows img.

(** ** Concrete inputs *)

(** One instance of the colour conversion: the BT.601 luminance in 14-bit
    fixed point. *)
Definition luma (p : Vec3b) : Z :=
  (1868 * blue p + 9617 * green p + 4899 * red p + 8192) / 16384.

Definition gray (v : Z) : Vec3b := mkVec3b v v v.

(** Five columns, four rows; column 2 is bright in the first three rows. *)
Definition image_5x4 : Mat Vec3b :=
  Mat_of_rows
    [ [gray 0; gray 0; gray 255; gray 0; gray 0];
      [gray 0; gray 0; gray 255; gray 0; gray 0];
      [gray 0; gray 0; gray 255; gray 0; gray 0];
      [gray 9; gray 7; gray 5; gray 3; gray 1] ].

(** Three columns, four rows. *)
Definition image_3x4 : Mat Vec3b :=
  Mat_of_rows
    [ [gray 0; gray 50; gray 100];
      [gray 10; gray 60; gray 110];
      [gray 20; gray 70; gray 120];
      [gray 30; gray 80; gray 130] ].

(** Four columns, four rows. *)
Definition image_4x4 : Mat Vec3b :=
  Mat_of_rows
    [ [gray 1; gray 2; gray 3; gray 4];
      [gray 5; gray 6; gray 7; gray 8];
      [gray 9; gray 10; gray 11; gray 12];
      [gray 13; gray 14; gray 15; gray 16] ].

(** An energy field of three columns and three rows, with ties. *)
Definition energy_3x3 : Mat float :=
  Mat_of_rows
    [ [1%float; 5%float; 1%float];
      [9%float; 0%float; 9%float];
      [0%float; 9%float; 0%float] ].

Definition fresh : world := mkWorld EmptyString None.

(** ** Notions for the further properties *)

(** [(double)k] for a signed [k]: the difference of two 8-bit values. *)
Definition signed_double (k : Z) : float :=
  if k <? 0 then PrimFloat.opp (to_double (- k)) else to_double k.

(** The difference of the doubles of two 8-bit values is the double of
    their difference. *)
Definition difference_exact (a b : Z) : bool :=
  PrimFloat.Leibniz.eqb (PrimFloat.sub (to_double a) (to_double b)) (signed_double (a - b)).

(** The square of the double of [k] is the double of [|k| * |k|]. *)
Definition square_exact (k : Z) : bool :=
  PrimFloat.Leibniz.eqb (PrimFloat.mul (signed_double k) (signed_double k))
    (to_double (Z.abs k * Z.abs k)).

(** The root of the sum of the squares of [a] and [b] lies in [0, 361]. *)
Definition magnitude_bounded (a b : Z) : bool :=
  let e := PrimFloat.sqrt (PrimFloat.add (to_double (a * a)) (to_double (b * b))) in
  PrimFloat.leb 0 e && PrimFloat.leb e 361.

(** The column of the seam in row [i]; 0 where the buffer holds nothing. *)
Definition seam_col (seam : buffer) (i : Z) : Z := default 0 (buf_get seam i).

(** The energy summed along a seam from row 0 down to row [i], in the
    order the dynamic programme adds it: the row's energy plus the sum
    above. *)
Fixpoint path_energy (e : Z → Z → float) (s : Z → Z) (i : nat) : float :=
  match i with
  | O => e 0 (s 0)
  | S i' => (e (Z.of_nat i) (s (Z.of_nat i)) + path_energy e s i')%float
  end.

(** Every pixel of [img] is a pixel of [img0], found at most [dr] rows
    below and [dc] columns to the right of its place in [img]. *)
Definition shifted_from (img0 : Mat Vec3b) (dr dc : Z) (img : Mat Vec3b) : Prop :=
  ∀ i j, 0 ≤ i < rows img → 0 ≤ j < cols img →
         ∃ i' j', i ≤ i' ≤ i + dr ∧ j ≤ j' ≤ j + dc ∧
                  Mat_at img i j = Mat_at img0 i' j'.

(** A uniform image: every pixel is [p]. *)
Definition uniform (r c : Z) (p : Vec3b) : Mat Vec3b := Mat_fill r c p.

(** An energy field of two columns and three rows, each row flat. *)
Definition energy_flat_2x3 : Mat float :=
  Mat_of_rows
    [ [1%float; 1%float];
      [2%float; 2%float];
      [0%float; 0%float] ].

(** * Proofs *)

(** ** Loops *)

Section LoopFacts.
Context {St : Type}.

(** A counted loop whose body keeps an invariant runs to its end and
    establishes the invariant at the final index. *)
Lemma for_up_inv (P : Z → St → Prop) (body : Z → St → option St) (n : nat) :
  ∀ (i : Z) (s : St),
    P i s →
    (∀ k t, i ≤ k < i + Z.of_nat n → P k t →
            ∃ t', body k t = Some t' ∧ P (k + 1) t') →
    ∃ s', for_up n i body s = Some s' ∧ P (i + Z.of_nat n) s'.
Proof.
  induction n as [|n IH]; intros i s Hs Hbody.
  - exists s. split; [done|]. by replace (i + Z.of_nat 0) with i by lia.
  - destruct (Hbody i s) as (t & Ht & HPt); [lia|done|].
    destruct (IH (i + 1) t HPt) as (s' & Hs' & HP').
    { intros k u Hk Hu. apply Hbody; [lia|done]. }
    exists s'. split.
    + simpl. rewrite Ht. simpl. exact Hs'.
    + by replace (i + Z.of_nat (S n)) with (i + 1 + Z.of_nat n) by lia.
Qed.

Lemma for_range_inv (P : Z → St → Prop) (body : Z → St → option St) (lo hi : Z) (s : St) :
  lo ≤ hi →
  P lo s →
  (∀ k t, lo ≤ k < hi → P k t → ∃ t', body k t = Some t' ∧ P (k + 1) t') →
  ∃ s', for_range lo hi body s = Some s' ∧ P hi s'.
Proof.
  intros Hle Hs Hbody. unfold for_range.
  destruct (for_up_inv P body (Z.to_nat (hi - lo)) lo s Hs) as (s' & Hs' & HP).
  - intros k t Hk. apply Hbody. lia.
  - exists s'. split; [done|]. by replace hi with (lo + Z.of_nat (Z.to_nat (hi - lo))) by lia.
Qed.

Lemma for_down_inv (P : Z → St → Prop) (body : Z → St → option St) (n : nat) :
  ∀ (i : Z) (s : St),
    P i s →
    (∀ k t, i - Z.of_nat n < k ≤ i → P k t →
            ∃ t', body k t = Some t' ∧ P (k - 1) t') →
    ∃ s', for_down n i body s = Some s' ∧ P (i - Z.of_nat n) s'.
Proof.
  induction n as [|n IH]; intros i s Hs Hbody.
  - exists s. split; [done|]. by replace (i - Z.of_nat 0) with i by lia.
  - destruct (Hbody i s) as (t & Ht & HPt); [lia|done|].
    destruct (IH (i - 1) t HPt) as (s' & Hs' & HP').
    { intros k u Hk Hu. apply Hbody; [lia|done]. }
    exists s'. split.
    + simpl. rewrite Ht. simpl. exact Hs'.
    + by replace (i - Z.of_nat (S n)) with (i - 1 - Z.of_nat n) by lia.
Qed.

Lemma for_downto0_inv (P : Z → St → Prop) (body : Z → St → option St) (hi : Z) (s : St) :
  -1 ≤ hi →
  P hi s →
  (∀ k t, 0 ≤ k ≤ hi → P k t → ∃ t', body k t = Some t' ∧ P (k - 1) t') →
  ∃ s', for_downto0 hi body s = Some s' ∧ P (-1) s'.
Proof.
  intros Hle Hs Hbody. unfold for_downto0.
  destruct (for_down_inv P body (Z.to_nat (hi + 1)) hi s Hs) as (s' & Hs' & HP).
  - intros k t Hk. apply Hbody. lia.
  - exists s'. split; [done|].
    by replace (-1) with (hi - Z.of_nat (Z.to_nat (hi + 1))) by lia.
Qed.

(** A while loop whose body keeps an invariant and lowers a measure by
    one returns once the measure says the condition is off, given that
    many runs. *)
Lemma while_inv (P : St → Prop) (μ : St → Z) (cond : St → bool) (body : St → option St) :
  (∀ s, P s → cond s = true ↔ 0 < μ s) →
  (∀ s, P s → 0 < μ s → ∃ s', body s = Some s' ∧ P s' ∧ μ s' = μ s - 1) →
  ∀ (fuel : nat) (s : St),
    P s → μ s ≤ Z.of_nat fuel →
    ∃ s', while fuel cond body s = Returns s' ∧ P s' ∧ μ s' = Z.min (μ s) 0.
Proof.
  intros Hcond Hbody. induction fuel as [|fuel IH]; intros s Hs Hfuel.
  - exists s. destruct (cond s) eqn:Hc.
    + apply Hcond in Hc; [lia|done].
    + simpl. rewrite Hc. repeat split; [done|].
      assert (¬ 0 < μ s) by (rewrite <- Hcond by done; congruence). lia.
  - destruct (cond s) eqn:Hc.
    + pose proof Hc as Hpos. apply Hcond in Hpos; [|done].
      destruct (Hbody s Hs Hpos) as (t & Ht & HPt & Hμ).
      destruct (IH t HPt) as (s' & Hs' & HP' & Hμ'); [lia|].
      exists s'. simpl. rewrite Hc, Ht. repeat split; [done..|lia].
    + exists s. simpl. rewrite Hc. repeat split; [done|].
      assert (¬ 0 < μ s) by (rewrite <- Hcond by done; congruence). lia.
Qed.
(** A while loop whose body keeps an invariant and lowers a measure by
    one runs its body exactly as many times as the measure says. *)
Lemma while_runs (P : St → Prop) (μ : St → Z) (cond : St → bool) (body : St → option St) :
  (∀ s, P s → cond s = true ↔ 0 < μ s) →
  (∀ s, P s → 0 < μ s → ∃ s', body s = Some s' ∧ P s' ∧ μ s' = μ s - 1) →
  ∀ (fuel : nat) (s : St),
    P s → 0 ≤ μ s ≤ Z.of_nat fuel →
    ∃ s', after_runs (Z.to_nat (μ s)) body s = Some s' ∧
          while fuel cond body s = Returns s' ∧ P s' ∧ μ s' = 0.
Proof.
  intros Hcond Hbody. induction fuel as [|fuel IH]; intros s Hs Hfuel.
  - exists s. assert (μ s = 0) as Hμ by lia. rewrite Hμ. simpl.
    destruct (cond s) eqn:Hc; [apply Hcond in Hc; [lia|done]|done].
  - destruct (cond s) eqn:Hc.
    + pose proof Hc as Hpos. apply Hcond in Hpos; [|done].
      destruct (Hbody s Hs Hpos) as (t & Ht & HPt & Hμ).
      destruct (IH t HPt) as (s' & Hruns & Hwhile & HP' & Hμ'); [lia|].
      exists s'. replace (Z.to_nat (μ s)) with (S (Z.to_nat (μ t))) by lia.
      simpl. rewrite Hc, Ht. simpl. done.
    + assert (¬ 0 < μ s) by (rewrite <- Hcond by done; congruence).
      assert (μ s = 0) as Hμ by lia.
      exists s. rewrite Hμ. simpl. rewrite Hc. done.
Qed.

End LoopFacts.

(** Name the invariant of the loop in the goal. *)
Ltac use_for_range P H :=
  match goal with
  | |- context [for_range ?lo ?hi ?body ?s] =>
      pose proof (for_range_inv P body lo hi s) as H
  end.

(** ** Matrices and buffers *)

Section MatFacts.
Context {A : Type}.
Implicit Types (m : Mat A) (i j : Z).

Lemma inside_true m i j : 0 ≤ i < rows m → 0 ≤ j < cols m → inside m i j = true.
Proof. unfold inside. intros. repeat (apply andb_true_intro; split); lia. Qed.

Lemma Mat_at_inside m i j : 0 ≤ i < rows m → 0 ≤ j < cols m → Mat_at m i j = cell m i j.
Proof. intros. unfold Mat_at. by rewrite inside_true. Qed.

(** A write inside the bounds succeeds, keeps the header, and changes
    exactly the cell written. *)
Lemma Mat_set_inside m i j v :
  0 ≤ i < rows m → 0 ≤ j < cols m →
  ∃ m', Mat_set m i j v = Some m' ∧ rows m' = rows m ∧ cols m' = cols m ∧
        cell m' i j = Some v ∧
        ∀ i' j', (i', j') ≠ (i, j) → cell m' i' j' = cell m i' j'.
Proof.
  intros Hi Hj. unfold Mat_set. rewrite inside_true by done.
  eexists. split; [done|]. simpl. repeat split.
  - by rewrite !Z.eqb_refl.
  - intros i' j' Hne.
    destruct (i' =? i) eqn:Ei; [|done]. destruct (j' =? j) eqn:Ej; [|done].
    apply Z.eqb_eq in Ei, Ej. congruence.
Qed.

Lemma transpose_at m i j : Mat_at (transpose m) i j = Mat_at m j i.
Proof.
  unfold Mat_at, inside, transpose. simpl.
  destruct (0 <=? i), (i <? cols m), (0 <=? j), (j <? rows m); done.
Qed.

Lemma transpose_full m : Mat_full m → Mat_full (transpose m).
Proof. intros H i j Hi Hj. simpl in *. by apply H. Qed.

Lemma Mat_of_rows_full (l : list (list A)) :
  Forall (λ row, length row = length (default [] (head l))) l →
  Mat_full (Mat_of_rows l).
Proof.
  intros Hrect i j Hi Hj. simpl in *.
  replace (0 <=? i) with true by lia. replace (0 <=? j) with true by lia. simpl.
  destruct (lookup_lt_is_Some_2 l (Z.to_nat i)) as [row Hrow]; [lia|].
  rewrite Hrow. simpl. apply lookup_lt_is_Some_2.
  rewrite Forall_lookup in Hrect. rewrite (Hrect _ _ Hrow). lia.
Qed.
End MatFacts.

Lemma buf_new_length (n : Z) : length (buf_new n) = Z.to_nat n.
Proof. unfold buf_new. by rewrite length_replicate. Qed.

(** ** The energy map (energyCal) *)

Section Energy.
Variable bgr2gray : Vec3b → Z.

Lemma cvtColor_at (img : Mat Vec3b) (y x : Z) :
  Mat_full img → 0 ≤ y < rows img → 0 ≤ x < cols img →
  Mat_at (cvtColor bgr2gray img) y x = Some (pixel_gray bgr2gray img y x).
Proof.
  intros Hfull Hy Hx. unfold pixel_gray.
  rewrite Mat_at_inside by done. simpl.
  destruct (Hfull y x Hy Hx) as [p ->]. done.
Qed.

(** The chain of conditionals of the source computes the gradient of the
    specification, reading only inside the axis. *)
Lemma gradient_chain (r : Z → option Z) (g : Z → Z) (k n : Z) :
  0 ≤ k < n →
  (∀ k', 0 ≤ k' < n → r k' = Some (g k')) →
  (if (0 <? k) && (k <? n - 1) then
     a ← r (k + 1); b ← r (k - 1); Some (to_double a - to_double b)%float
   else if (k =? 0) && (1 <? n) then
     a ← r (k + 1); b ← r k; Some (to_double a - to_double b)%float
   else if (k =? n - 1) && (1 <? n) then
     a ← r k; b ← r (k - 1); Some (to_double a - to_double b)%float
   else Some 0%float) = Some (spec_gradient g k n).
Proof.
  intros Hk Hr. unfold spec_gradient.
  destruct (n =? 1) eqn:En.
  { apply Z.eqb_eq in En.
    replace (0 <? k) with false by lia. replace (1 <? n) with false by lia.
    simpl. by rewrite !andb_false_r. }
  apply Z.eqb_neq in En.
  destruct (k =? 0) eqn:E0.
  { apply Z.eqb_eq in E0.
    replace (0 <? k) with false by lia. replace (1 <? n) with true by lia.
    simpl. rewrite !Hr by lia. done. }
  apply Z.eqb_neq in E0. replace (0 <? k) with true by lia.
  destruct (k =? n - 1) eqn:E1.
  { apply Z.eqb_eq in E1.
    replace (k <? n - 1) with false by lia. replace (1 <? n) with true by lia.
    simpl. rewrite !Hr by lia. done. }
  apply Z.eqb_neq in E1. replace (k <? n - 1) with true by lia.
  simpl. rewrite !Hr by lia. done.
Qed.

Lemma energyCal_spec (img : Mat Vec3b) :
  Mat_full img → 0 ≤ rows img → 0 ≤ cols img →
  ∃ energy, energyCal bgr2gray img = Some energy ∧
            rows energy = rows img ∧ cols energy = cols img ∧
            ∀ y x, 0 ≤ y < rows img → 0 ≤ x < cols img →
                   Mat_at energy y x = Some (spec_energy bgr2gray img x y).
Proof.
  intros Hfull Hrows Hcols. unfold energyCal.
  use_for_range (λ y, energy_upto bgr2gray img y 0) Hloop.
  destruct Hloop as (energy & Hrun & Hr & Hc & Hcells).
  - done.
  - repeat split; [done..|]. intros; lia.
  - intros y result Hy Hinv. simpl in Hy.
    use_for_range (λ x, energy_upto bgr2gray img y x) Hloop.
    destruct Hloop as (result' & Hrun' & Hr' & Hc' & Hcells').
    + done.
    + done.
    + intros x res Hx (Hr & Hc & Hcells). simpl in Hx |- *.
      pose proof (gradient_chain (λ x', Mat_at (cvtColor bgr2gray img) y x')
                    (λ x', pixel_gray bgr2gray img y x') x (cols img) Hx) as Gx.
      pose proof (gradient_chain (λ y', Mat_at (cvtColor bgr2gray img) y' x)
                    (λ y', pixel_gray bgr2gray img y' x) y (rows img) Hy) as Gy.
      cbv beta in Gx, Gy.
      rewrite Gx by (intros; by apply cvtColor_at).
      rewrite Gy by (intros; by apply cvtColor_at). simpl.
      destruct (Mat_set_inside res y x
                  (PrimFloat.sqrt
                     (spec_gradient (λ x', pixel_gray bgr2gray img y x') x (cols img) *
                      spec_gradient (λ x', pixel_gray bgr2gray img y x') x (cols img) +
                      spec_gradient (λ y', pixel_gray bgr2gray img y' x) y (rows img) *
                      spec_gradient (λ y', pixel_gray bgr2gray img y' x) y (rows img))%float))
        as (res' & Hset & Hr2 & Hc2 & Hnew & Hold); [lia..|].
      exists res'. split; [exact Hset|].
      repeat split; [congruence..|].
      intros y' x' Hy' Hx' Hbefore.
      destruct (decide ((y', x') = (y, x))) as [[= -> ->]|Hne].
      * exact Hnew.
      * rewrite Hold by done. apply Hcells; [done..|].
        destruct Hbefore as [?|[-> ?]]; [by left|].
        right. split; [done|]. assert (x' ≠ x) by congruence. lia.
    + exists result'. split; [exact Hrun'|].
      repeat split; [done..|].
      intros y' x' Hy' Hx' Hbefore. apply Hcells'; [done..|].
      destruct Hbefore as [?|[? ?]]; [|lia].
      destruct (decide (y' = y)) as [->|]; [right; split; [done|]; simpl in *; lia|left; lia].
  - exists energy. split; [exact Hrun|]. repeat split; [done..|].
    intros y x Hy Hx. rewrite Mat_at_inside by lia. apply Hcells; [done..|]. simpl. lia.
Qed.
End Energy.

(** ** The cumulative energy (seamSearch, lines 50-65) *)

Lemma spec_cum_0 (energy : Mat float) (j : Z) :
  spec_cum energy 0 j = value energy 0 j.
Proof. done. Qed.

Lemma spec_cum_step (energy : Mat float) (i j : Z) :
  1 ≤ i →
  spec_cum energy i j
  = (value energy i j + best_above (spec_cum energy (i - 1)) j (cols energy))%float.
Proof.
  intros Hi. unfold spec_cum.
  replace (Z.to_nat i) with (S (Z.to_nat (i - 1))) by lia. simpl.
  replace (Z.of_nat (S (Z.to_nat (i - 1)))) with i by lia. done.
Qed.

Lemma best_above_ext (f g : Z → float) (j cols : Z) :
  0 ≤ j < cols →
  (∀ j', 0 ≤ j' < cols → f j' = g j') →
  best_above f j cols = best_above g j cols.
Proof.
  intros Hj Hfg. unfold best_above.
  rewrite (Hfg j) by lia.
  destruct (0 <? j) eqn:E0; destruct (j <? cols - 1) eqn:E1;
    rewrite ?(Hfg (j - 1)), ?(Hfg (j + 1)) by lia; done.
Qed.

Lemma cumulative_spec (energy : Mat float) :
  Mat_full energy → 1 ≤ rows energy → 0 ≤ cols energy →
  ∃ cum, cumulative energy = Some cum ∧
         rows cum = rows energy ∧ cols cum = cols energy ∧
         ∀ i j, 0 ≤ i < rows energy → 0 ≤ j < cols energy →
                Mat_at cum i j = Some (spec_cum energy i j).
Proof.
  intros Hfull Hrows Hcols. unfold cumulative, clone.
  use_for_range (λ i, cum_upto energy i 0) Hloop.
  destruct Hloop as (cum & Hrun & Hr & Hc & Hcells).
  - done.
  - repeat split; [done..|]. intros i j Hi Hj.
    destruct (Hfull i j Hi Hj) as [v Hv].
    assert (value energy i j = v) as Hval.
    { unfold value. rewrite Mat_at_inside by done. by rewrite Hv. }
    rewrite Hv. f_equal. case_decide as Hd; [|done].
    assert (i = 0) as -> by lia. by rewrite spec_cum_0.
  - intros i cum0 Hi Hinv.
    use_for_range (λ j, cum_upto energy i j) Hloop.
    destruct Hloop as (cum1 & Hrun1 & Hr1 & Hc1 & Hcells1).
    + done.
    + done.
    + intros j c Hj (Hr & Hc & Hcells). simpl.
      rewrite (Mat_at_inside c (i - 1) j), (Mat_at_inside c i j) by lia.
      rewrite (Hcells (i - 1) j) by lia. rewrite decide_True by lia. simpl.
      assert ((if 0 <? j
               then v ← Mat_at c (i - 1) (j - 1);
                    Some (fmin (spec_cum energy (i - 1) j) v)
               else Some (spec_cum energy (i - 1) j))
              = Some (if 0 <? j
                      then fmin (spec_cum energy (i - 1) j) (spec_cum energy (i - 1) (j - 1))
                      else spec_cum energy (i - 1) j)) as ->.
      { destruct (0 <? j) eqn:E0; [|done].
        rewrite Mat_at_inside by lia. rewrite (Hcells (i - 1) (j - 1)) by lia.
        rewrite decide_True by lia. done. }
      simpl.
      assert (∀ b, (if j <? cols energy - 1
               then v ← Mat_at c (i - 1) (j + 1); Some (fmin b v)
               else Some b)
              = Some (if j <? cols energy - 1
                      then fmin b (spec_cum energy (i - 1) (j + 1))
                      else b)) as ->.
      { intros b. destruct (j <? cols energy - 1) eqn:E1; [|done].
        rewrite Mat_at_inside by lia. rewrite (Hcells (i - 1) (j + 1)) by lia.
        rewrite decide_True by lia. done. }
      simpl. rewrite (Hcells i j) by lia. rewrite decide_False by lia. simpl.
      match goal with |- ∃ t', Mat_set c i j ?v = Some t' ∧ _ =>
        destruct (Mat_set_inside c i j v) as (c' & Hset & Hr2 & Hc2 & Hnew & Hold);
          [lia..|]
      end.
      exists c'. split; [exact Hset|]. repeat split; [congruence..|].
      intros i' j' Hi' Hj'.
      destruct (decide ((i', j') = (i, j))) as [[= -> ->]|Hne].
      * rewrite Hnew. rewrite decide_True by lia. f_equal.
        rewrite (spec_cum_step energy i j) by lia. done.
      * rewrite Hold by done. rewrite Hcells by done. f_equal.
        assert (i' ≠ i ∨ j' ≠ j) by (destruct (decide (i' = i)); [right; congruence|by left]).
        repeat case_decide; done || lia.
    + exists cum1. split; [exact Hrun1|]. repeat split; [done..|].
      intros i' j' Hi' Hj'. rewrite Hcells1 by done. f_equal.
      repeat case_decide; done || lia.
  - exists cum. split; [exact Hrun|]. repeat split; [done..|].
    intros i j Hi Hj. rewrite Mat_at_inside by lia. rewrite Hcells by done.
    rewrite decide_True by lia. done.
Qed.


(** ** The order of doubles *)

Module FloatOrder.
Lemma SFltb_rank (f g : spec_float) :
  f ≠ S754_nan → g ≠ S754_nan →
  SFltb f g = true ↔ lex_lt (rank f) (rank g).
Proof.
  intros Hf Hg. unfold SFltb, lex_lt.
  destruct f as [[]|[]| |[] m1 e1], g as [[]|[]| |[] m2 e2];
    try done; simpl; try (split; [done || lia | lia || intuition (done || lia)]).
  all: rewrite Pos.compare_cont_spec; simpl.
  all: destruct (Z.compare_spec e1 e2); destruct (Pos.compare_spec m1 m2);
    simpl; split; intros; done || lia.
Qed.

Lemma SFltb_nan_l (g : spec_float) : SFltb S754_nan g = false.
Proof. done. Qed.

Lemma SFltb_nan_r (f : spec_float) : SFltb f S754_nan = false.
Proof. by destruct f as [[]|[]| |[] ? ?]. Qed.

Lemma is_nan_spec (x : float) : is_nan x = false ↔ Prim2SF x ≠ S754_nan.
Proof.
  unfold is_nan. rewrite FloatAxioms.eqb_spec. unfold SFeqb.
  destruct (Prim2SF x) as [[]|[]| |[] m e]; simpl; try (split; done).
  all: rewrite Z.compare_refl, Pos.compare_cont_refl; simpl; split; done.
Qed.

Lemma ltb_not_nan (x y : float) :
  (x <? y)%float = true → is_nan x = false ∧ is_nan y = false.
Proof.
  rewrite FloatAxioms.ltb_spec, !is_nan_spec. intros H. split; intros E; rewrite E in H.
  - by rewrite SFltb_nan_l in H.
  - by rewrite SFltb_nan_r in H.
Qed.

Lemma ltb_rank (x y : float) :
  is_nan x = false → is_nan y = false →
  (x <? y)%float = true ↔ lex_lt (rank (Prim2SF x)) (rank (Prim2SF y)).
Proof. rewrite FloatAxioms.ltb_spec, !is_nan_spec. apply SFltb_rank. Qed.

(** Strict less-than on doubles is transitive. *)
Lemma ltb_trans (x y z : float) :
  (x <? y)%float = true → (y <? z)%float = true → (x <? z)%float = true.
Proof.
  intros Hxy Hyz.
  destruct (ltb_not_nan _ _ Hxy) as [Hx Hy]. destruct (ltb_not_nan _ _ Hyz) as [_ Hz].
  rewrite ltb_rank in * by done. unfold lex_lt in *. lia.
Qed.

Lemma ltb_asym (x y : float) :
  (x <? y)%float = true → (y <? x)%float = false.
Proof.
  intros Hxy. destruct (ltb_not_nan _ _ Hxy) as [Hx Hy].
  apply not_true_is_false. rewrite ltb_rank in * by done. unfold lex_lt in *. lia.
Qed.

(** Below a value that a third one is not below: for numbers, [x < y]
    and [y <= z]. *)
Lemma ltb_nlt_trans (x y z : float) :
  is_nan z = false →
  (x <? y)%float = true → (z <? y)%float = false → (x <? z)%float = true.
Proof.
  intros Hz Hxy Hzy. destruct (ltb_not_nan _ _ Hxy) as [Hx Hy].
  apply not_true_iff_false in Hzy.
  rewrite ltb_rank in * by done. unfold lex_lt in *. lia.
Qed.
Lemma ltb_irrefl (x : float) : (x <? x)%float = false.
Proof.
destruct (x <? x)%float eqn:E; [|done].
pose proof (ltb_asym _ _ E). congruence.
Qed.
End FloatOrder.

(** ** The least cell above *)

(** [best_above] is the value of one of the cells above that exist, and
    none of them is strictly less: it is their minimum. *)
Lemma best_above_least (prev : Z → float) (j cols : Z) :
  let best := best_above prev j cols in
  (best = prev j ∨ (0 < j ∧ best = prev (j - 1)) ∨ (j < cols - 1 ∧ best = prev (j + 1))) ∧
  PrimFloat.ltb (prev j) best = false ∧
  (0 < j → PrimFloat.ltb (prev (j - 1)) best = false) ∧
  (j < cols - 1 → PrimFloat.ltb (prev (j + 1)) best = false).
Proof.
  assert (∀ a b c, PrimFloat.ltb a b = true → PrimFloat.ltb c b = false →
                   PrimFloat.ltb c a = false) as Hbelow.
  { intros a b c Hab Hcb. destruct (PrimFloat.ltb c a) eqn:Hca; [|done].
    rewrite (FloatOrder.ltb_trans c a b) in Hcb; done. }
  unfold best_above, fmin. simpl.
  destruct (0 <? j) eqn:E0; destruct (j <? cols - 1) eqn:E1.
  - destruct (PrimFloat.ltb (prev (j - 1)) (prev j)) eqn:Hl.
    + destruct (PrimFloat.ltb (prev (j + 1)) (prev (j - 1))) eqn:Hr.
      * repeat split; intros; try (right; right; split; [lia|done]);
          try apply FloatOrder.ltb_irrefl.
        -- eapply Hbelow; [exact Hr|]. by apply FloatOrder.ltb_asym.
        -- eapply Hbelow; [exact Hr|]. apply FloatOrder.ltb_irrefl.
      * repeat split; intros; try (right; left; split; [lia|done]);
          try apply FloatOrder.ltb_irrefl; try done.
        by apply FloatOrder.ltb_asym.
    + destruct (PrimFloat.ltb (prev (j + 1)) (prev j)) eqn:Hr.
      * repeat split; intros; try (right; right; split; [lia|done]);
          try apply FloatOrder.ltb_irrefl.
        -- eapply Hbelow; [exact Hr|]. apply FloatOrder.ltb_irrefl.
        -- eapply Hbelow; [exact Hr|]. done.
      * repeat split; intros; try (by left); try apply FloatOrder.ltb_irrefl; done.
  - destruct (PrimFloat.ltb (prev (j - 1)) (prev j)) eqn:Hl.
    + repeat split; intros; try (right; left; split; [lia|done]);
        try apply FloatOrder.ltb_irrefl; try lia.
      by apply FloatOrder.ltb_asym.
    + repeat split; intros; try (by left); try apply FloatOrder.ltb_irrefl; done || lia.
  - destruct (PrimFloat.ltb (prev (j + 1)) (prev j)) eqn:Hr.
    + repeat split; intros; try (right; right; split; [lia|done]);
        try apply FloatOrder.ltb_irrefl; try lia.
      by apply FloatOrder.ltb_asym.
    + repeat split; intros; try (by left); try apply FloatOrder.ltb_irrefl; done || lia.
  - repeat split; intros; try (by left); try apply FloatOrder.ltb_irrefl; lia.
Qed.

(** ** The seam finder (seamSearch) *)

Lemma value_at (m : Mat float) (i j : Z) :
  Mat_full m → 0 ≤ i < rows m → 0 ≤ j < cols m →
  Mat_at m i j = Some (value m i j).
Proof.
  intros Hfull Hi Hj. unfold value. rewrite Mat_at_inside by done.
  by destruct (Hfull i j Hi Hj) as [v ->].
Qed.

Lemma buf_set_eq (b : buffer) (i v : Z) :
  0 ≤ i < Z.of_nat (length b) → buf_set b i v = Some (<[Z.to_nat i := Some v]> b).
Proof.
  intros Hi. unfold buf_set.
  by replace ((0 <=? i) && (i <? Z.of_nat (length b))) with true
    by (symmetry; apply andb_true_intro; split; lia).
Qed.

Lemma buf_get_insert_eq (b : buffer) (i v : Z) :
  0 ≤ i < Z.of_nat (length b) → buf_get (<[Z.to_nat i := Some v]> b) i = Some v.
Proof.
  intros Hi. unfold buf_get. replace (0 <=? i) with true by lia.
  by rewrite list_lookup_insert_eq by lia.
Qed.

Lemma buf_get_insert_ne (b : buffer) (i k v : Z) :
  0 ≤ i → k ≠ i → buf_get (<[Z.to_nat i := Some v]> b) k = buf_get b k.
Proof.
  intros Hi Hk. unfold buf_get. destruct (0 <=? k) eqn:Hk0; [|done].
  by rewrite list_lookup_insert_ne by lia.
Qed.

(** *** The start column (minMaxLoc) *)

(** The scan returns a column of the row, whatever the values compare to. *)
Lemma minLoc_x_range (m : Mat float) (r : Z) :
  Mat_full m → 0 ≤ r < rows m → 1 ≤ cols m →
  ∃ c, minLoc_x m r = Some c ∧ 0 ≤ c < cols m.
Proof.
  intros Hfull Hr Hcols. unfold minLoc_x.
  rewrite value_at by (done || lia). simpl.
  use_for_range (λ j (best : Z * float), 0 ≤ best.1 < j) Hloop.
  destruct Hloop as ([c v] & Hrun & Hc).
  - done.
  - simpl. lia.
  - intros j [c v] Hj Hc. simpl in *.
    rewrite value_at by (done || lia). simpl. eexists. split; [done|].
    destruct (PrimFloat.ltb (value m r j) v); simpl; lia.
  - rewrite Hrun. simpl in *. exists c. split; [done|lia].
Qed.

(** The column it returns holds a least value of the row, the first one. *)
Lemma minLoc_x_leftmost (m : Mat float) (r : Z) :
  Mat_full m → 0 ≤ r < rows m → 1 ≤ cols m →
  ∃ c, minLoc_x m r = Some c ∧ 0 ≤ c < cols m ∧
       (∀ k, c < k < cols m → PrimFloat.ltb (value m r k) (value m r c) = false) ∧
       (row_ordered m r → leftmost_min (value m r) (cols m) c).
Proof.
  intros Hfull Hr Hcols. unfold minLoc_x.
  rewrite value_at by (done || lia). simpl.
  use_for_range (scan_upto m r) Hloop.
  destruct Hloop as ([c v] & Hrun & Hc & Hv & Hright & Hleft).
  - done.
  - repeat split; simpl; intros; lia.
  - intros j [c v] Hj (Hc & Hv & Hright & Hleft). simpl in *.
    rewrite value_at by (done || lia). simpl. eexists. split; [done|].
    destruct (PrimFloat.ltb (value m r j) v) eqn:Hlt; repeat split; simpl; try lia.
    + intros Hord k Hk.
      destruct (decide (k < c)) as [Hkc|Hkc].
      { eapply FloatOrder.ltb_trans; [exact Hlt|]. apply Hleft; [done|lia]. }
      destruct (decide (k = c)) as [->|Hne]; [subst v; exact Hlt|].
      eapply FloatOrder.ltb_nlt_trans; [|exact Hlt|].
      * apply Hord. lia.
      * apply Hright. lia.
    + done.
    + intros k Hk. destruct (decide (k = j)) as [->|]; [done|]. apply Hright. lia.
    + done.
  - simpl in *. rewrite Hrun. simpl. exists c. split; [done|]. split; [lia|].
    subst v. split; [done|]. intros Hord. split.
    + intros k Hk. destruct (decide (k < c)) as [Hkc|Hkc].
      { apply FloatOrder.ltb_asym, Hleft; [done|lia]. }
      destruct (decide (k = c)) as [->|]; [apply FloatOrder.ltb_irrefl|].
      apply Hright. lia.
    + intros k Hk. by apply Hleft.
Qed.

(** *** One step of backtracking *)

Lemma spec_choice_near (row : Z → float) (prev cols : Z) :
  0 ≤ prev < cols →
  0 ≤ spec_choice row prev cols < cols ∧
  prev - 1 ≤ spec_choice row prev cols ≤ prev + 1.
Proof.
  intros Hp. unfold spec_choice, neighbours.
  destruct (0 <? prev) eqn:E0; destruct (prev <? cols - 1) eqn:E1; simpl;
    repeat match goal with |- context [if PrimFloat.ltb ?a ?b then _ else _] =>
             destruct (PrimFloat.ltb a b) end; lia.
Qed.

(** The straight column wins a tie with either neighbour: it is kept
    unless a neighbour is strictly smaller. *)
Lemma spec_choice_straight (row : Z → float) (prev cols : Z) :
  (0 < prev → PrimFloat.ltb (row (prev - 1)) (row prev) = false) →
  (prev < cols - 1 → PrimFloat.ltb (row (prev + 1)) (row prev) = false) →
  spec_choice row prev cols = prev.
Proof.
  intros Hl Hr. unfold spec_choice, neighbours.
  destruct (0 <? prev) eqn:E0; destruct (prev <? cols - 1) eqn:E1; simpl;
    rewrite ?Hl, ?Hr by lia; rewrite ?Hr by lia; done.
Qed.

(** The left neighbour wins a tie with the right: once chosen, it is kept
    unless the right neighbour is strictly smaller. *)
Lemma spec_choice_left (row : Z → float) (prev cols : Z) :
  0 < prev →
  PrimFloat.ltb (row (prev - 1)) (row prev) = true →
  (prev < cols - 1 → PrimFloat.ltb (row (prev + 1)) (row (prev - 1)) = false) →
  spec_choice row prev cols = prev - 1.
Proof.
  intros Hp Hl Hr. unfold spec_choice, neighbours.
  replace (0 <? prev) with true by lia.
  destruct (prev <? cols - 1) eqn:E1; simpl; rewrite Hl; rewrite ?Hr by lia; done.
Qed.

(** The right neighbour is chosen exactly when it is strictly smaller than
    the better of the other two. *)
Lemma spec_choice_right (row : Z → float) (prev cols : Z) :
  0 ≤ prev →
  spec_choice row prev cols = prev + 1 →
  prev < cols - 1 ∧
  PrimFloat.ltb (row (prev + 1)) (row prev) = true ∧
  (0 < prev → PrimFloat.ltb (row (prev - 1)) (row prev) = true →
   PrimFloat.ltb (row (prev + 1)) (row (prev - 1)) = true).
Proof.
  intros Hp. unfold spec_choice, neighbours.
  destruct (0 <? prev) eqn:E0; destruct (prev <? cols - 1) eqn:E1; simpl.
  - destruct (PrimFloat.ltb (row (prev - 1)) (row prev)) eqn:Hl;
      [destruct (PrimFloat.ltb (row (prev + 1)) (row (prev - 1))) eqn:Hr
      |destruct (PrimFloat.ltb (row (prev + 1)) (row prev)) eqn:Hr];
      intros; try lia; repeat split; try done; try lia.
    eapply FloatOrder.ltb_trans; done.
  - destruct (PrimFloat.ltb (row (prev - 1)) (row prev)); lia.
  - destruct (PrimFloat.ltb (row (prev + 1)) (row prev)) eqn:Hr; intros; lia.
  - lia.
Qed.

Lemma backtrack_spec (cum : Mat float) (i : Z) (seam : buffer) (prev : Z) :
  Mat_full cum → 0 ≤ i < rows cum →
  i + 1 < Z.of_nat (length seam) →
  buf_get seam (i + 1) = Some prev → 0 ≤ prev < cols cum →
  ∃ seam', backtrack cum (cols cum) i seam = Some seam' ∧
           length seam' = length seam ∧
           buf_get seam' i = Some (spec_choice (value cum i) prev (cols cum)) ∧
           ∀ k, k ≠ i → buf_get seam' k = buf_get seam k.
Proof.
  intros Hfull Hi Hlen Hprev Hp. unfold backtrack, spec_choice, neighbours.
  rewrite Hprev. simpl. rewrite (value_at cum i prev) by (done || lia). simpl.
  rewrite buf_set_eq by lia. simpl.
  destruct (0 <? prev) eqn:E0; simpl.
  - rewrite (value_at cum i (prev - 1)) by (done || lia). simpl.
    destruct (PrimFloat.ltb (value cum i (prev - 1)) (value cum i prev)) eqn:Hl; simpl.
    + rewrite buf_set_eq by (rewrite length_insert; lia). simpl.
      destruct (prev <? cols cum - 1) eqn:E1; simpl.
      * rewrite (value_at cum i (prev + 1)) by (done || lia). simpl.
        destruct (PrimFloat.ltb (value cum i (prev + 1)) (value cum i (prev - 1))) eqn:Hr.
        -- rewrite buf_set_eq by (rewrite !length_insert; lia).
           eexists. split; [done|]. rewrite !length_insert. repeat split.
           ++ apply buf_get_insert_eq. rewrite !length_insert. lia.
           ++ intros k Hk. rewrite !buf_get_insert_ne by lia. done.
        -- eexists. split; [done|]. rewrite !length_insert. repeat split.
           ++ apply buf_get_insert_eq. rewrite !length_insert. lia.
           ++ intros k Hk. rewrite !buf_get_insert_ne by lia. done.
      * eexists. split; [done|]. rewrite !length_insert. repeat split.
        -- apply buf_get_insert_eq. rewrite !length_insert. lia.
        -- intros k Hk. rewrite !buf_get_insert_ne by lia. done.
    + destruct (prev <? cols cum - 1) eqn:E1; simpl.
      * rewrite (value_at cum i (prev + 1)) by (done || lia). simpl.
        destruct (PrimFloat.ltb (value cum i (prev + 1)) (value cum i prev)) eqn:Hr.
        -- rewrite buf_set_eq by (rewrite !length_insert; lia).
           eexists. split; [done|]. rewrite !length_insert. repeat split.
           ++ apply buf_get_insert_eq. rewrite !length_insert. lia.
           ++ intros k Hk. rewrite !buf_get_insert_ne by lia. done.
        -- eexists. split; [done|]. rewrite !length_insert. repeat split.
           ++ apply buf_get_insert_eq. lia.
           ++ intros k Hk. rewrite !buf_get_insert_ne by lia. done.
      * eexists. split; [done|]. rewrite !length_insert. repeat split.
        -- apply buf_get_insert_eq. lia.
        -- intros k Hk. rewrite !buf_get_insert_ne by lia. done.
  - destruct (prev <? cols cum - 1) eqn:E1; simpl.
    + rewrite (value_at cum i (prev + 1)) by (done || lia). simpl.
      destruct (PrimFloat.ltb (value cum i (prev + 1)) (value cum i prev)) eqn:Hr.
      * rewrite buf_set_eq by (rewrite !length_insert; lia).
        eexists. split; [done|]. rewrite !length_insert. repeat split.
        -- apply buf_get_insert_eq. rewrite !length_insert. lia.
        -- intros k Hk. rewrite !buf_get_insert_ne by lia. done.
      * eexists. split; [done|]. rewrite !length_insert. repeat split.
        -- apply buf_get_insert_eq. lia.
        -- intros k Hk. rewrite !buf_get_insert_ne by lia. done.
    + eexists. split; [done|]. rewrite !length_insert. repeat split.
      * apply buf_get_insert_eq. lia.
      * intros k Hk. rewrite !buf_get_insert_ne by lia. done.
Qed.

(** *** The whole search *)

Lemma cumulative_full (energy cum : Mat float) :
  Mat_full energy → 1 ≤ rows energy → 0 ≤ cols energy →
  cumulative energy = Some cum →
  Mat_full cum ∧ rows cum = rows energy ∧ cols cum = cols energy.
Proof.
  intros Hfull Hr Hc Hcum.
  destruct (cumulative_spec energy Hfull Hr Hc) as (cum' & Hcum' & Hr' & Hc' & Hcells).
  simplify_eq. split; [|done].
  intros i j Hi Hj. specialize (Hcells i j). rewrite Mat_at_inside in Hcells by lia.
  rewrite Hcells by lia. done.
Qed.

Lemma seamSearch_spec (energy : Mat float) :
  Mat_full energy → 1 ≤ rows energy → 1 ≤ cols energy →
  ∃ cum seam c0,
    cumulative energy = Some cum ∧
    seamSearch energy = Some seam ∧
    minLoc_x cum (rows energy - 1) = Some c0 ∧
    buf_get seam (rows energy - 1) = Some c0 ∧
    seam_upto cum (-1) seam.
Proof.
  intros Hfull Hrows Hcols.
  destruct (cumulative_spec energy Hfull Hrows) as (cum & Hcum & _); [lia|].
  destruct (cumulative_full energy cum Hfull Hrows) as (Hcfull & Hr & Hc); [lia|done|].
  destruct (minLoc_x_range cum (rows energy - 1) Hcfull) as (c0 & Hmin & Hc0);
    [lia..|].
  exists cum. unfold seamSearch. rewrite Hcum. simpl. rewrite Hmin. simpl.
  rewrite buf_set_eq by (rewrite buf_new_length; lia). simpl.
  destruct (for_downto0_inv
              (λ i seam, seam_upto cum i seam ∧ buf_get seam (rows energy - 1) = Some c0)
              (backtrack cum (cols energy)) (rows energy - 2)
              (<[Z.to_nat (rows energy - 1) := Some c0]> (buf_new (rows energy))))
    as (seam & Hrun & Hinv & Hlast).
  - lia.
  - assert (buf_get (<[Z.to_nat (rows energy - 1) := Some c0]> (buf_new (rows energy)))
              (rows energy - 1) = Some c0) as Hget.
    { apply buf_get_insert_eq. rewrite buf_new_length. lia. }
    split; [|done]. split.
    + rewrite length_insert, buf_new_length. lia.
    + intros k Hk. assert (k = rows energy - 1) as -> by lia.
      exists c0. split; [done|]. split; [lia|]. lia.
  - intros i seam Hi [[Hlen Hdone] Hlast].
    destruct (Hdone (i + 1)) as (prev & Hprev & Hp & _); [lia|].
    rewrite <- Hc.
    destruct (backtrack_spec cum i seam prev Hcfull) as (seam' & Hstep & Hlen' & Hnew & Hold);
      [lia|lia|done|done|].
    exists seam'. split; [done|]. split; [split|].
    + congruence.
    + intros k Hk. destruct (decide (k = i)) as [->|Hne].
      * eexists. split; [exact Hnew|]. split.
        -- apply spec_choice_near. done.
        -- intros _. exists prev. split; [|done]. rewrite Hold by lia. done.
      * destruct (Hdone k) as (c & Hget & Hrange & Hrule); [lia|].
        exists c. rewrite Hold by done. split; [done|]. split; [done|].
        intros Hk'. destruct (Hrule Hk') as (p & Hp' & Hcp).
        exists p. rewrite Hold by lia. done.
    + rewrite Hold by lia. done.
  - exists seam, c0. replace (rows energy - 2 + 1 - 1) with (rows energy - 2) in * by lia.
    repeat split; try done; apply Hinv.
Qed.

(** ** The seam remover (removeVerSeam) *)

Lemma removeVerSeam_spec (img : Mat Vec3b) (seam : buffer) :
  Mat_full img → 0 ≤ rows img → 1 ≤ cols img →
  seam_valid seam (rows img) (cols img) →
  ∃ newImg, removeVerSeam img seam = Some newImg ∧
            rows newImg = rows img ∧ cols newImg = cols img - 1 ∧
            ∀ i j c, 0 ≤ i < rows img → 0 ≤ j < cols img - 1 →
                     buf_get seam i = Some c →
                     Mat_at newImg i j = Mat_at img i (source_col c j).
Proof.
  intros Hfull Hrows Hcols Hseam. unfold removeVerSeam.
  replace (cols img - 1 <? 0) with false by lia.
  use_for_range (λ i, removed_upto img seam i 0) Hloop.
  destruct Hloop as (newImg & Hrun & Hr & Hc & Hcells).
  - done.
  - repeat split; [done..|]. intros; lia.
  - intros i new0 Hi Hinv.
    destruct (Hseam i Hi) as (c & Hget & Hcr). rewrite Hget. simpl.
    (* the columns left of the seam *)
    use_for_range (λ j, removed_upto img seam i j) Hloop.
    destruct Hloop as (new1 & Hrun1 & Hinv1).
    { lia. }
    { done. }
    { intros j new Hj (Hr & Hc & Hcells).
      destruct (Hfull i j) as [p Hp]; [lia..|].
      rewrite Mat_at_inside, Hp by lia. simpl.
      destruct (Mat_set_inside new i j p) as (new' & Hset & Hr2 & Hc2 & Hnew & Hold);
        [lia..|].
      exists new'. split; [done|]. repeat split; [congruence..|].
      intros i' j' Hi' Hj' Hbefore c' Hc'.
      destruct (decide ((i', j') = (i, j))) as [[= -> ->]|Hne].
      - rewrite Hnew. assert (c' = c) as -> by congruence.
        unfold source_col. replace (j <? c) with true by lia. done.
      - rewrite Hold by done. apply Hcells; [done..| |done].
        destruct Hbefore as [?|[-> ?]]; [by left|].
        right. split; [done|]. assert (j' ≠ j) by congruence. lia. }
    rewrite Hrun1. simpl.
    (* the columns right of the seam *)
    use_for_range (λ j, removed_upto img seam i (j - 1)) Hloop.
    destruct Hloop as (new2 & Hrun2 & Hr2 & Hc2 & Hcells2).
    { lia. }
    { by replace (c + 1 - 1) with c by lia. }
    { intros j new Hj (Hr & Hc & Hcells).
      destruct (Hfull i j) as [p Hp]; [lia..|].
      rewrite Mat_at_inside, Hp by lia. simpl.
      destruct (Mat_set_inside new i (j - 1) p) as (new' & Hset & Hr2 & Hc2 & Hnew & Hold);
        [lia..|].
      exists new'. split; [done|]. repeat split; [congruence..|].
      intros i' j' Hi' Hj' Hbefore c' Hc'.
      destruct (decide ((i', j') = (i, j - 1))) as [[= -> ->]|Hne].
      - rewrite Hnew. assert (c' = c) as -> by congruence.
        unfold source_col. replace (j - 1 <? c) with false by lia.
        by replace (j - 1 + 1) with j by lia.
      - rewrite Hold by done. apply Hcells; [done..| |done].
        destruct Hbefore as [?|[-> ?]]; [by left|].
        right. split; [done|]. assert (j' ≠ j - 1) by congruence. lia. }
    exists new2. split; [done|]. repeat split; [done..|].
    intros i' j' Hi' Hj' Hbefore c' Hc'. apply Hcells2; [done..| |done].
    destruct Hbefore as [?|[? ?]]; [|lia].
    destruct (decide (i' = i)) as [->|]; [right; split; [done|lia]|left; lia].
  - exists newImg. split; [done|]. repeat split; [done..|].
    intros i j c Hi Hj Hget.
    rewrite !Mat_at_inside by (unfold source_col; destruct (j <? c); lia).
    apply Hcells; [done..|lia|done].
Qed.

Lemma removeVerSeam_full (img newImg : Mat Vec3b) (seam : buffer) :
  Mat_full img → 0 ≤ rows img → 1 ≤ cols img →
  seam_valid seam (rows img) (cols img) →
  removeVerSeam img seam = Some newImg →
  Mat_full newImg.
Proof.
  intros Hfull Hrows Hcols Hseam Hrun.
  destruct (removeVerSeam_spec img seam Hfull Hrows Hcols Hseam)
    as (new' & Hrun' & Hr & Hc & Hcells).
  simplify_eq. intros i j Hi Hj.
  destruct (Hseam i) as (c & Hget & Hcr); [lia|].
  specialize (Hcells i j c). rewrite Mat_at_inside in Hcells by lia.
  rewrite Hcells by (done || lia).
  rewrite Mat_at_inside by (unfold source_col; destruct (j <? c); lia).
  apply Hfull; unfold source_col; destruct (j <? c); lia.
Qed.

(** ** The loop bodies of the driver *)

Section Driver.
Variable bgr2gray : Vec3b → Z.

Lemma energyCal_full (img : Mat Vec3b) (energy : Mat float) :
  Mat_full img → 0 ≤ rows img → 0 ≤ cols img →
  energyCal bgr2gray img = Some energy →
  Mat_full energy ∧ rows energy = rows img ∧ cols energy = cols img.
Proof.
  intros Hfull Hr Hc Hrun.
  destruct (energyCal_spec bgr2gray img Hfull Hr Hc) as (e & He & Hr' & Hc' & Hcells).
  simplify_eq. split; [|done].
  intros i j Hi Hj. specialize (Hcells i j). rewrite Mat_at_inside in Hcells by lia.
  rewrite Hcells by lia. done.
Qed.

(** One run of the body of the first loop: a seam is found and removed;
    the image keeps its rows and loses one column, and every pixel of the
    result is a pixel of the input, from the same row. *)
Lemma width_step_spec (img : Mat Vec3b) :
  Mat_full img → 1 ≤ rows img → 1 ≤ cols img →
  ∃ energy seam img',
    energyCal bgr2gray img = Some energy ∧
    seamSearch energy = Some seam ∧
    removeVerSeam img seam = Some img' ∧
    width_step bgr2gray img = Some img' ∧
    seam_valid seam (rows img) (cols img) ∧
    Mat_full img' ∧ rows img' = rows img ∧ cols img' = cols img - 1 ∧
    ∀ i j c, 0 ≤ i < rows img → 0 ≤ j < cols img - 1 →
             buf_get seam i = Some c →
             Mat_at img' i j = Mat_at img i (source_col c j).
Proof.
  intros Hfull Hrows Hcols.
  destruct (energyCal_spec bgr2gray img Hfull) as (energy & He & _); [lia..|].
  destruct (energyCal_full img energy Hfull) as (Hefull & Her & Hec); [lia..|done|].
  destruct (seamSearch_spec energy Hefull) as (cum & seam & c0 & Hcum & Hs & _ & _ & Hlen & Hseam);
    [lia..|].
  destruct (cumulative_full energy cum Hefull) as (_ & Hcr & Hcc); [lia..|done|].
  assert (seam_valid seam (rows img) (cols img)) as Hvalid.
  { intros i Hi. destruct (Hseam i) as (c & Hget & Hc & _); [lia|].
    exists c. split; [done|lia]. }
  destruct (removeVerSeam_spec img seam Hfull) as (img' & Hrem & Hr' & Hc' & Hcells);
    [lia..|done|].
  exists energy, seam, img'. unfold width_step. rewrite He. simpl. rewrite Hs. simpl.
  repeat split; try done.
  eapply removeVerSeam_full; [exact Hfull| | |exact Hvalid|exact Hrem]; lia.
Qed.

(** The body of the second loop is the body of the first between two
    transpositions. *)
Lemma height_step_width_step (img : Mat Vec3b) :
  height_step bgr2gray img = transpose <$> width_step bgr2gray (transpose img).
Proof.
  unfold height_step, width_step.
  destruct (energyCal bgr2gray (transpose img)) as [energy|]; [simpl|done].
  destruct (seamSearch energy) as [seam|]; [simpl|done].
  by destruct (removeVerSeam (transpose img) seam).
Qed.

Lemma height_step_spec (img : Mat Vec3b) :
  Mat_full img → 1 ≤ rows img → 1 ≤ cols img →
  ∃ seam img',
    (energy ← energyCal bgr2gray (transpose img); seamSearch energy) = Some seam ∧
    height_step bgr2gray img = Some img' ∧
    seam_valid seam (cols img) (rows img) ∧
    Mat_full img' ∧ rows img' = rows img - 1 ∧ cols img' = cols img ∧
    ∀ i j c, 0 ≤ i < rows img - 1 → 0 ≤ j < cols img →
             buf_get seam j = Some c →
             Mat_at img' i j = Mat_at img (source_col c i) j.
Proof.
  intros Hfull Hrows Hcols.
  destruct (width_step_spec (transpose img)) as
    (energy & seam & out & He & Hs & Hrem & Hstep & Hvalid & Hofull & Hr & Hc & Hcells);
    [by apply transpose_full|done..|].
  simpl in *. exists seam, (transpose out).
  rewrite height_step_width_step, Hstep, He. simpl.
  repeat split; try done.
  - by apply transpose_full.
  - intros i j c Hi Hj Hget. rewrite transpose_at.
    rewrite (Hcells j i c) by done. apply transpose_at.
Qed.

Lemma seamCar_spec (fuel : nat) (img : Mat Vec3b) (newWidth newHeight : Z) (w : world) :
  Mat_full img →
  1 ≤ newWidth < cols img → 1 ≤ newHeight < rows img →
  cols img - newWidth ≤ Z.of_nat fuel → rows img - newHeight ≤ Z.of_nat fuel →
  ∃ out, seamCar bgr2gray fuel img newWidth newHeight w = (w, Returns out) ∧
         Mat_full out ∧ cols out = newWidth ∧ rows out = newHeight.
Proof.
  intros Hfull Hw Hh Hfw Hfh. unfold seamCar.
  replace ((rows img <=? newHeight) || (cols img <=? newWidth)) with false
    by (symmetry; apply orb_false_intro; lia).
  destruct (while_inv (reducing_width img newWidth) (λ s, cols s - newWidth)
              (λ s, newWidth <? cols s) (width_step bgr2gray))
    with (fuel := fuel) (s := img) as (mid & Hrun1 & (Hmfull & Hmr & Hmc) & Hμ1).
  - intros s _. rewrite Z.ltb_lt. lia.
  - intros s (Hsfull & Hsr & Hsc) Hpos.
    destruct (width_step_spec s Hsfull) as
      (_ & _ & s' & _ & _ & _ & Hstep & _ & Hfull' & Hr' & Hc' & _); [lia..|].
    exists s'. unfold reducing_width. repeat split; [done|done|lia|lia|lia].
  - unfold reducing_width. repeat split; [done|lia].
  - done.
  - rewrite Hrun1.
    destruct (while_inv (reducing_height newWidth newHeight) (λ s, rows s - newHeight)
                (λ s, newHeight <? rows s) (height_step bgr2gray))
      with (fuel := fuel) (s := mid) as (out & Hrun2 & (Hofull & Hoc & Hor) & Hμ2).
    + intros s _. rewrite Z.ltb_lt. lia.
    + intros s (Hsfull & Hsc & Hsr) Hpos.
      destruct (height_step_spec s Hsfull) as
        (_ & s' & _ & Hstep & _ & Hfull' & Hr' & Hc' & _); [lia..|].
      exists s'. unfold reducing_height. repeat split; [done|done|lia|lia|lia].
    + unfold reducing_height. repeat split; [done|lia|lia].
    + lia.
    + exists out. rewrite Hrun2. repeat split; [done|done|lia].
Qed.
End Driver.

(** * The properties of the specification *)

(** ** Concrete runs *)

Lemma image_5x4_full : Mat_full image_5x4.
Proof. apply Mat_of_rows_full. repeat constructor. Qed.

Lemma image_3x4_full : Mat_full image_3x4.
Proof. apply Mat_of_rows_full. repeat constructor. Qed.

Lemma energy_3x3_full : Mat_full energy_3x3.
Proof. apply Mat_of_rows_full. repeat constructor. Qed.

(** The seam of [energy_3x3].  The last cumulative row is 1, 10, 1: the
    scan keeps its first least value, column 0.  Above column 1 the two
    neighbours tie at 1 below the straight 5: the left one is taken. *)
Example seamSearch_energy_3x3 :
  seamSearch energy_3x3 = Some [Some 0; Some 1; Some 0].
Proof. vm_compute. reflexivity. Qed.

(** The last cumulative row of [energy_3x3] holds no NaN, so its start
    column is the leftmost minimum: column 0, although column 2 ties. *)
Example start_column_energy_3x3 :
  ∃ cum, cumulative energy_3x3 = Some cum ∧
         row_ordered cum 2 ∧
         minLoc_x cum 2 = Some 0 ∧
         leftmost_min (value cum 2) 3 0 ∧
         PrimFloat.eqb (value cum 2 2) (value cum 2 0) = true.
Proof.
  destruct (cumulative_spec energy_3x3 energy_3x3_full) as (cum & Hcum & Hr & Hc & Hcells);
    [simpl; lia..|].
  assert (∀ k, value cum 2 k = default 0%float (Mat_at cum 2 k)) as Hval by done.
  assert (row_ordered cum 2) as Hord.
  { intros k Hk. rewrite Hc in Hk. simpl in Hk. rewrite Hval, Hcells by (simpl; lia).
    assert (k = 0 ∨ k = 1 ∨ k = 2) as [-> | [-> | ->]] by lia; vm_compute; reflexivity. }
  assert (Mat_full cum) as Hfull.
  { by apply (cumulative_full energy_3x3 cum energy_3x3_full). }
  destruct (minLoc_x_leftmost cum 2 Hfull) as (c & Hmin & Hrange & _ & Hleft);
    [rewrite ?Hr, ?Hc; simpl; lia..|].
  assert (Some c = Some 0) as [= ->].
  { rewrite <- Hmin. unfold minLoc_x, for_range. rewrite Hc.
    change (Z.to_nat (cols energy_3x3 - 1)) with 2%nat. cbn [for_up].
    rewrite !Hcells by (simpl; lia). vm_compute. reflexivity. }
  exists cum. do 3 (split; [done|]). split.
  - rewrite Hc in Hleft. exact (Hleft Hord).
  - rewrite !Hval, !Hcells by (simpl; lia). vm_compute. reflexivity.
Qed.

(** One run of the first loop on the 5x4 image: the seam found is the last
    column, the cheapest in the last row; it is dropped from every row
    and the rest is kept in order. *)
Example width_step_image_5x4 :
  Mat_to_rows <$> width_step luma image_5x4
  = Some [ [Some (gray 0); Some (gray 0); Some (gray 255); Some (gray 0)];
           [Some (gray 0); Some (gray 0); Some (gray 255); Some (gray 0)];
           [Some (gray 0); Some (gray 0); Some (gray 255); Some (gray 0)];
           [Some (gray 9); Some (gray 7); Some (gray 5); Some (gray 3)] ].
Proof. vm_compute. reflexivity. Qed.

(** ** C1: the driver reaches the target dimensions *)

(** C1.  For every image of dimensions W x H with all its pixels present
    and every target with 1 <= W' < W and 1 <= H' < H, seamCar returns,
    once each loop is allowed the W - W' and H - H' runs it needs, and
    the image it returns has exactly W' columns and H' rows. *)
Theorem seamCar_returns_target_dimensions
    (bgr2gray : Vec3b → Z) (fuel : nat) (img : Mat Vec3b) (W H W' H' : Z) (w : world) :
  Mat_full img → cols img = W → rows img = H →
  1 ≤ W' < W → 1 ≤ H' < H →
  W - W' ≤ Z.of_nat fuel → H - H' ≤ Z.of_nat fuel →
  ∃ out, seamCar bgr2gray fuel img W' H' w = (w, Returns out) ∧
         cols out = W' ∧ rows out = H' ∧ Mat_full out.
Proof.
  intros Hfull <- <- Hw Hh Hfw Hfh.
  destruct (seamCar_spec bgr2gray fuel img W' H' w Hfull Hw Hh Hfw Hfh)
    as (out & Hrun & Hofull & Hc & Hr).
  by exists out.
Qed.

Lemma seamCar_returns_target_dimensions_witness :
  ∃ out, seamCar luma 2 image_5x4 3 2 fresh = (fresh, Returns out) ∧
         cols out = 3 ∧ rows out = 2 ∧ Mat_full out.
Proof.
  apply (seamCar_returns_target_dimensions luma 2 image_5x4 5 4 3 2 fresh);
    [exact image_5x4_full | reflexivity | reflexivity | lia | lia | simpl; lia | simpl; lia].
Defined.

(** ** C2: the shape of a seam *)

(** C2.  For every energy field of W >= 1 columns and H >= 1 rows,
    seamSearch returns a seam of H written entries, each a column in
    [0, W), and two adjacent entries differ by at most 1. *)
Theorem seamSearch_seam_shape (energy : Mat float) (W H : Z) :
  Mat_full energy → cols energy = W → rows energy = H →
  1 ≤ W → 1 ≤ H →
  ∃ seam, seamSearch energy = Some seam ∧
          length seam = Z.to_nat H ∧
          (∀ i, 0 ≤ i < H → ∃ c, buf_get seam i = Some c ∧ 0 ≤ c < W) ∧
          (∀ i a b, 0 ≤ i < H - 1 →
                    buf_get seam i = Some a → buf_get seam (i + 1) = Some b →
                    Z.abs (a - b) ≤ 1).
Proof.
  intros Hfull <- <- Hw Hh.
  destruct (seamSearch_spec energy Hfull Hh Hw)
    as (cum & seam & c0 & Hcum & Hrun & _ & _ & Hlen & Hseam).
  destruct (cumulative_full energy cum Hfull) as (_ & Hr & Hc); [lia..|done|].
  rewrite Hr, Hc in *.
  exists seam. repeat split; [done|done|..].
  - intros i Hi. destruct (Hseam i) as (c & Hget & Hrange & _); [lia|]. by exists c.
  - intros i a b Hi Ha Hb.
    destruct (Hseam i) as (c & Hget & _ & Hrule); [lia|].
    destruct Hrule as (p & Hp & ->); [lia|].
    destruct (Hseam (i + 1)) as (p' & Hp'' & Hprange & _); [lia|].
    assert (p' = p) as -> by congruence.
    assert (a = spec_choice (value cum i) p (cols energy)) as -> by congruence.
    assert (b = p) as -> by congruence.
    pose proof (spec_choice_near (value cum i) p (cols energy) Hprange). lia.
Qed.

Lemma seamSearch_seam_shape_witness :
  ∃ seam, seamSearch energy_3x3 = Some seam ∧
          length seam = Z.to_nat 3 ∧
          (∀ i, 0 ≤ i < 3 → ∃ c, buf_get seam i = Some c ∧ 0 ≤ c < 3) ∧
          (∀ i a b, 0 ≤ i < 3 - 1 →
                    buf_get seam i = Some a → buf_get seam (i + 1) = Some b →
                    Z.abs (a - b) ≤ 1).
Proof.
  apply (seamSearch_seam_shape energy_3x3 3 3);
    [exact energy_3x3_full | reflexivity | reflexivity | lia | lia].
Defined.

(** ** C3: the seam remover keeps every other pixel *)

(** C3.  For every image of W >= 2 columns and H rows with all its pixels
    present, and every seam of H entries each in [0, W), removeVerSeam
    returns an image of W - 1 columns and H rows whose pixel at row i,
    column j is the input pixel at column j when j < seam[i] and at
    column j + 1 otherwise. *)
Theorem removeVerSeam_pixels (img : Mat Vec3b) (seam : list Z) (W H : Z) :
  Mat_full img → cols img = W → rows img = H →
  2 ≤ W → 0 ≤ H →
  length seam = Z.to_nat H →
  Forall (λ c, 0 ≤ c < W) seam →
  ∃ newImg, removeVerSeam img (Some <$> seam) = Some newImg ∧
            cols newImg = W - 1 ∧ rows newImg = H ∧
            ∀ i j c, 0 ≤ i < H → 0 ≤ j < W - 1 →
                     seam !! Z.to_nat i = Some c →
                     ∃ p, Mat_at newImg i j = Some p ∧
                          Mat_at img i (if j <? c then j else j + 1) = Some p.
Proof.
  intros Hfull <- <- Hw Hh Hlen Hall.
  assert (∀ i c, 0 ≤ i → seam !! Z.to_nat i = Some c →
                 buf_get (Some <$> seam) i = Some c) as Hget.
  { intros i c Hi Hc. unfold buf_get. replace (0 <=? i) with true by lia.
    rewrite list_lookup_fmap, Hc. done. }
  destruct (removeVerSeam_spec img (Some <$> seam) Hfull)
    as (newImg & Hrun & Hr & Hc & Hcells); [lia..| |].
  { intros i Hi. destruct (lookup_lt_is_Some_2 seam (Z.to_nat i)) as [c Hc]; [lia|].
    exists c. split; [apply Hget; [lia|done]|].
    rewrite Forall_lookup in Hall. by apply (Hall _ _ Hc). }
  exists newImg. repeat split; [done..|].
  intros i j c Hi Hj Hseam.
  rewrite (Hcells i j c); [|lia|lia|apply Hget; [lia|done]].
  unfold source_col.
  rewrite Forall_lookup in Hall. pose proof (Hall _ _ Hseam) as Hcr. simpl in Hcr.
  destruct (Hfull i (if j <? c then j else j + 1)) as [p Hp];
    [lia|destruct (j <? c); lia|].
  exists p. rewrite Mat_at_inside by (done || destruct (j <? c); lia). done.
Qed.

Lemma removeVerSeam_pixels_witness :
  ∃ newImg, removeVerSeam image_3x4 (Some <$> [0; 1; 2; 1]) = Some newImg ∧
            cols newImg = 3 - 1 ∧ rows newImg = 4 ∧
            ∀ i j c, 0 ≤ i < 4 → 0 ≤ j < 3 - 1 →
                     [0; 1; 2; 1] !! Z.to_nat i = Some c →
                     ∃ p, Mat_at newImg i j = Some p ∧
                          Mat_at image_3x4 i (if j <? c then j else j + 1) = Some p.
Proof.
  apply (removeVerSeam_pixels image_3x4 [0; 1; 2; 1] 3 4);
    [exact image_3x4_full | reflexivity | reflexivity | lia | lia | reflexivity
    | repeat constructor; lia].
Defined.

(** ** C4: the tie-breaking of the seam finder *)

(** C4.  In the seam that seamSearch returns, the entry of the last row
    is a column of least cumulative energy in that row with only strictly
    greater values to its left (the row holding no NaN), and the entry of
    every other row follows from the entry [prev] below it by comparing
    the straight, left and right candidates in that order with strict
    less-than: the straight column is kept unless a neighbour is strictly
    smaller, the left neighbour, once taken, is kept unless the right one
    is strictly smaller than it, and the right neighbour is taken only
    when it is strictly smaller than both. *)
Theorem seamSearch_tie_breaking (energy : Mat float) (W H : Z) :
  Mat_full energy → cols energy = W → rows energy = H →
  1 ≤ W → 1 ≤ H →
  ∃ cum seam,
    cumulative energy = Some cum ∧ seamSearch energy = Some seam ∧
    (∃ c, buf_get seam (H - 1) = Some c ∧ 0 ≤ c < W ∧
          (row_ordered cum (H - 1) → leftmost_min (value cum (H - 1)) W c)) ∧
    (∀ i, 0 ≤ i < H - 1 →
          ∃ prev c,
            buf_get seam (i + 1) = Some prev ∧ buf_get seam i = Some c ∧
            c = spec_choice (value cum i) prev W ∧
            ((0 < prev → PrimFloat.ltb (value cum i (prev - 1)) (value cum i prev) = false) →
             (prev < W - 1 → PrimFloat.ltb (value cum i (prev + 1)) (value cum i prev) = false) →
             c = prev) ∧
            (0 < prev →
             PrimFloat.ltb (value cum i (prev - 1)) (value cum i prev) = true →
             (prev < W - 1 →
              PrimFloat.ltb (value cum i (prev + 1)) (value cum i (prev - 1)) = false) →
             c = prev - 1) ∧
            (c = prev + 1 →
             PrimFloat.ltb (value cum i (prev + 1)) (value cum i prev) = true ∧
             (0 < prev →
              PrimFloat.ltb (value cum i (prev - 1)) (value cum i prev) = true →
              PrimFloat.ltb (value cum i (prev + 1)) (value cum i (prev - 1)) = true))).
Proof.
  intros Hfull <- <- Hw Hh.
  destruct (seamSearch_spec energy Hfull Hh Hw)
    as (cum & seam & c0 & Hcum & Hrun & Hmin & Hlast & Hlen & Hseam).
  destruct (cumulative_full energy cum Hfull) as (Hcfull & Hr & Hc); [lia..|done|].
  rewrite Hr, Hc in *.
  exists cum, seam. repeat split; [done|done|..].
  - destruct (minLoc_x_leftmost cum (rows energy - 1) Hcfull) as (c & Hc' & Hrange & _ & Hleft);
      [lia..|].
    assert (c = c0) as -> by congruence.
    exists c0. rewrite Hc in *. done.
  - intros i Hi.
    destruct (Hseam i) as (c & Hget & _ & Hrule); [lia|].
    destruct Hrule as (prev & Hprev & ->); [lia|].
    destruct (Hseam (i + 1)) as (prev' & Hprev' & Hprange & _); [lia|].
    assert (prev' = prev) as -> by congruence.
    exists prev, (spec_choice (value cum i) prev (cols energy)).
    do 3 (split; [done|]). split; [|split].
    + apply spec_choice_straight.
    + apply spec_choice_left.
    + intros Hright.
      destruct (spec_choice_right (value cum i) prev (cols energy)) as (_ & Hlt & Hboth);
        [lia|done|done].
Qed.

Lemma seamSearch_tie_breaking_witness :
  ∃ cum seam,
    cumulative energy_3x3 = Some cum ∧ seamSearch energy_3x3 = Some seam ∧
    (∃ c, buf_get seam (3 - 1) = Some c ∧ 0 ≤ c < 3 ∧
          (row_ordered cum (3 - 1) → leftmost_min (value cum (3 - 1)) 3 c)) ∧
    (∀ i, 0 ≤ i < 3 - 1 →
          ∃ prev c,
            buf_get seam (i + 1) = Some prev ∧ buf_get seam i = Some c ∧
            c = spec_choice (value cum i) prev 3 ∧
            ((0 < prev → PrimFloat.ltb (value cum i (prev - 1)) (value cum i prev) = false) →
             (prev < 3 - 1 → PrimFloat.ltb (value cum i (prev + 1)) (value cum i prev) = false) →
             c = prev) ∧
            (0 < prev →
             PrimFloat.ltb (value cum i (prev - 1)) (value cum i prev) = true →
             (prev < 3 - 1 →
              PrimFloat.ltb (value cum i (prev + 1)) (value cum i (prev - 1)) = false) →
             c = prev - 1) ∧
            (c = prev + 1 →
             PrimFloat.ltb (value cum i (prev + 1)) (value cum i prev) = true ∧
             (0 < prev →
              PrimFloat.ltb (value cum i (prev - 1)) (value cum i prev) = true →
              PrimFloat.ltb (value cum i (prev + 1)) (value cum i (prev - 1)) = true))).
Proof.
  apply (seamSearch_tie_breaking energy_3x3 3 3);
    [exact energy_3x3_full | reflexivity | reflexivity | lia | lia].
Defined.

(** ** C5: the cumulative energy *)

(** C5.  After the dynamic-programming loop the cumulative field has the
    dimensions of the energy field; its row 0 is the energy's row 0;
    every cell of a later row is its energy plus the minimum of the two
    or three cells above it in the finished field; and the field
    accumulated in place equals, cell by cell, the field computed with
    one buffer per row. *)
Theorem cumulative_in_place_correct (energy : Mat float) (W H : Z) :
  Mat_full energy → cols energy = W → rows energy = H →
  0 ≤ W → 1 ≤ H →
  ∃ cum,
    cumulative energy = Some cum ∧ cols cum = W ∧ rows cum = H ∧
    (∀ j, 0 ≤ j < W → Mat_at cum 0 j = Mat_at energy 0 j) ∧
    (∀ i j, 1 ≤ i < H → 0 ≤ j < W →
            let best := best_above (value cum (i - 1)) j W in
            Mat_at cum i j = Some (value energy i j + best)%float ∧
            (best = value cum (i - 1) j ∨
             (0 < j ∧ best = value cum (i - 1) (j - 1)) ∨
             (j < W - 1 ∧ best = value cum (i - 1) (j + 1))) ∧
            PrimFloat.ltb (value cum (i - 1) j) best = false ∧
            (0 < j → PrimFloat.ltb (value cum (i - 1) (j - 1)) best = false) ∧
            (j < W - 1 → PrimFloat.ltb (value cum (i - 1) (j + 1)) best = false)) ∧
    (∀ i j, 0 ≤ i < H → 0 ≤ j < W → Mat_at cum i j = Some (spec_cum energy i j)).
Proof.
  intros Hfull <- <- Hw Hh.
  destruct (cumulative_spec energy Hfull Hh Hw) as (cum & Hrun & Hr & Hc & Hcells).
  exists cum. do 3 (split; [done|]). split; [|split; [|done]].
  - intros j Hj. rewrite Hcells, spec_cum_0 by lia.
    by rewrite value_at by (done || lia).
  - intros i j Hi Hj best. split; [|apply best_above_least].
    rewrite Hcells, (spec_cum_step energy i j) by lia. do 2 f_equal.
    unfold best. symmetry. apply best_above_ext; [done|].
    intros j' Hj'. unfold value at 1. rewrite Hcells by lia. done.
Qed.

Lemma cumulative_in_place_correct_witness :
  ∃ cum,
    cumulative energy_3x3 = Some cum ∧ cols cum = 3 ∧ rows cum = 3 ∧
    (∀ j, 0 ≤ j < 3 → Mat_at cum 0 j = Mat_at energy_3x3 0 j) ∧
    (∀ i j, 1 ≤ i < 3 → 0 ≤ j < 3 →
            let best := best_above (value cum (i - 1)) j 3 in
            Mat_at cum i j = Some (value energy_3x3 i j + best)%float ∧
            (best = value cum (i - 1) j ∨
             (0 < j ∧ best = value cum (i - 1) (j - 1)) ∨
             (j < 3 - 1 ∧ best = value cum (i - 1) (j + 1))) ∧
            PrimFloat.ltb (value cum (i - 1) j) best = false ∧
            (0 < j → PrimFloat.ltb (value cum (i - 1) (j - 1)) best = false) ∧
            (j < 3 - 1 → PrimFloat.ltb (value cum (i - 1) (j + 1)) best = false)) ∧
    (∀ i j, 0 ≤ i < 3 → 0 ≤ j < 3 → Mat_at cum i j = Some (spec_cum energy_3x3 i j)).
Proof.
  apply (cumulative_in_place_correct energy_3x3 3 3);
    [exact energy_3x3_full | reflexivity | reflexivity | lia | lia].
Defined.

(** ** C6: the energy map *)

(** C6.  For every non-empty image with all its pixels present, energyCal
    returns a field of the image's dimensions whose value at column x of
    row y is sqrt(gx * gx + gy * gy), where gx is the central difference
    of the grayscale values at an interior column, the forward
    difference at the left edge, the backward difference at the right
    edge and 0 when the image has one column, and gy is the same over
    rows. *)
Theorem energyCal_gradient_magnitude (bgr2gray : Vec3b → Z) (img : Mat Vec3b) (W H : Z) :
  Mat_full img → cols img = W → rows img = H →
  1 ≤ W → 1 ≤ H →
  ∃ energy,
    energyCal bgr2gray img = Some energy ∧ cols energy = W ∧ rows energy = H ∧
    ∀ x y, 0 ≤ x < W → 0 ≤ y < H →
      let g := pixel_gray bgr2gray img in
      let gx :=
        if decide (W = 1) then 0%float
        else if decide (x = 0) then PrimFloat.sub (to_double (g y (x + 1))) (to_double (g y x))
        else if decide (x = W - 1) then PrimFloat.sub (to_double (g y x)) (to_double (g y (x - 1)))
        else PrimFloat.sub (to_double (g y (x + 1))) (to_double (g y (x - 1))) in
      let gy :=
        if decide (H = 1) then 0%float
        else if decide (y = 0) then PrimFloat.sub (to_double (g (y + 1) x)) (to_double (g y x))
        else if decide (y = H - 1) then PrimFloat.sub (to_double (g y x)) (to_double (g (y - 1) x))
        else PrimFloat.sub (to_double (g (y + 1) x)) (to_double (g (y - 1) x)) in
      Mat_at energy y x = Some (PrimFloat.sqrt (gx * gx + gy * gy)%float).
Proof.
  intros Hfull <- <- Hw Hh.
  destruct (energyCal_spec bgr2gray img Hfull) as (energy & Hrun & Hr & Hc & Hcells);
    [lia..|].
  exists energy. repeat split; [done..|].
  intros x y Hx Hy g gx gy. rewrite Hcells by done. f_equal.
  unfold spec_energy, spec_gradient, gx, gy, g.
  repeat case_decide;
    repeat match goal with
           | H : ?a = ?b |- context [?a =? ?b] => rewrite (proj2 (Z.eqb_eq a b) H)
           | H : ?a ≠ ?b |- context [?a =? ?b] => rewrite (proj2 (Z.eqb_neq a b) H)
           end; done.
Qed.

Lemma energyCal_gradient_magnitude_witness :
  ∃ energy,
    energyCal luma image_5x4 = Some energy ∧ cols energy = 5 ∧ rows energy = 4 ∧
    ∀ x y, 0 ≤ x < 5 → 0 ≤ y < 4 →
      let g := pixel_gray luma image_5x4 in
      let gx :=
        if decide (5 = 1) then 0%float
        else if decide (x = 0) then PrimFloat.sub (to_double (g y (x + 1))) (to_double (g y x))
        else if decide (x = 5 - 1) then PrimFloat.sub (to_double (g y x)) (to_double (g y (x - 1)))
        else PrimFloat.sub (to_double (g y (x + 1))) (to_double (g y (x - 1))) in
      let gy :=
        if decide (4 = 1) then 0%float
        else if decide (y = 0) then PrimFloat.sub (to_double (g (y + 1) x)) (to_double (g y x))
        else if decide (y = 4 - 1) then PrimFloat.sub (to_double (g y x)) (to_double (g (y - 1) x))
        else PrimFloat.sub (to_double (g (y + 1) x)) (to_double (g (y - 1) x)) in
      Mat_at energy y x = Some (PrimFloat.sqrt (gx * gx + gy * gy)%float).
Proof.
  apply (energyCal_gradient_magnitude luma image_5x4 5 4);
    [exact image_5x4_full | reflexivity | reflexivity | lia | lia].
Defined.

(** ** C7, C8, C9: targets that are not strictly smaller *)

Lemma seamCar_invalid (bgr2gray : Vec3b → Z) (fuel : nat) (img : Mat Vec3b)
    (newWidth newHeight : Z) (w : world) :
  cols img ≤ newWidth ∨ rows img ≤ newHeight →
  seamCar bgr2gray fuel img newWidth newHeight w
  = (print ("Invalid Input" +:+ newline) w, Exits 0).
Proof.
  intros Hbad. unfold seamCar.
  replace ((rows img <=? newHeight) || (cols img <=? newWidth)) with true; [done|].
  symmetry. apply orb_true_iff. lia.
Qed.

Lemma main_invalid (bgr2gray : Vec3b → Z) (fuel : nat) (argv : list string)
    (imread : string → Mat Vec3b) (imwrite : string → Mat Vec3b → bool) (cin_w cin_h : Z) :
  let img := imread (default EmptyString (argv !! 1%nat)) in
  cols img ≤ cin_w ∨ rows img ≤ cin_h →
  saved (main bgr2gray fuel argv imread imwrite cin_w cin_h).1 = None ∧
  (2 ≤ length argv → Mat_empty img = false →
   (main bgr2gray fuel argv imread imwrite cin_w cin_h).2 = Exits 0)%nat.
Proof.
  intros img Hbad. unfold main. fold img.
  destruct (Z.of_nat (length argv) <? 2) eqn:Hargc; [split; [done|lia]|].
  destruct (Mat_empty img) eqn:Hempty; [done|].
  rewrite seamCar_invalid by done. done.
Qed.

(** C7.  For every image and every target whose width is not strictly
    less than the image's width or whose height is not strictly less than
    its height, equal dimensions included, seamCar prints Invalid Input
    and ends the process without returning an image, and main, whatever
    its arguments, leaves no image written. *)
Theorem invalid_target_no_output (bgr2gray : Vec3b → Z) (fuel : nat) (img : Mat Vec3b)
    (newWidth newHeight : Z) (w : world) :
  cols img ≤ newWidth ∨ rows img ≤ newHeight →
  seamCar bgr2gray fuel img newWidth newHeight w
  = (print ("Invalid Input" +:+ newline) w, Exits 0) ∧
  saved (seamCar bgr2gray fuel img newWidth newHeight w).1 = saved w ∧
  ∀ argv imread imwrite,
    imread (default EmptyString (argv !! 1%nat)) = img →
    saved (main bgr2gray fuel argv imread imwrite newWidth newHeight).1 = None.
Proof.
  intros Hbad. rewrite seamCar_invalid by done. repeat split.
  intros argv imread imwrite Himg.
  apply main_invalid. by rewrite Himg.
Qed.

Lemma invalid_target_no_output_witness :
  seamCar luma 4 image_4x4 4 3 fresh
  = (print ("Invalid Input" +:+ newline) fresh, Exits 0) ∧
  saved (seamCar luma 4 image_4x4 4 3 fresh).1 = saved fresh ∧
  ∀ argv imread imwrite,
    imread (default EmptyString (argv !! 1%nat)) = image_4x4 →
    saved (main luma 4 argv imread imwrite 4 3).1 = None.
Proof.
  apply (invalid_target_no_output luma 4 image_4x4 4 3 fresh).
  left. simpl. lia.
Defined.

(** C8.  The specification asks for a nonzero exit code on invalid
    dimensions.  On a 4x4 image with target 4x3 the program prints
    Invalid Input and ends through exit(0): its exit code is zero. *)
Theorem main_invalid_target_exit_code :
  main luma 4 ["seam"; "in.png"]%string (λ _, image_4x4) (λ _ _, true) 4 3
  = (mkWorld ("Enter new width: Enter new height: Invalid Input" +:+ newline) None,
     Exits 0).
Proof. vm_compute. reflexivity. Qed.

(** C9 as stated fails: on a 3x4 image with target width 3 and height 2
    seamCar returns no image at all. *)
Lemma equal_width_target_counterexample :
  ¬ ∃ out, (seamCar luma 4 image_3x4 3 2 fresh).2 = Returns out ∧
           cols out = 3 ∧ rows out = 2.
Proof.
  rewrite seamCar_invalid by (left; simpl; lia).
  intros (out & Hout & _). discriminate Hout.
Qed.

(** C9, amended.  For a 3x4 image with target width 3 and target height 2
    the driver does not go on to reduce the height: the target width is
    not strictly less than the width, so seamCar prints Invalid Input and
    ends the process without returning an image. *)
Theorem equal_width_target_rejected (bgr2gray : Vec3b → Z) (fuel : nat) (img : Mat Vec3b)
    (w : world) :
  cols img = 3 → rows img = 4 →
  seamCar bgr2gray fuel img 3 2 w = (print ("Invalid Input" +:+ newline) w, Exits 0).
Proof. intros Hc Hr. apply seamCar_invalid. lia. Qed.

Lemma equal_width_target_rejected_witness :
  seamCar luma 4 image_3x4 3 2 fresh = (print ("Invalid Input" +:+ newline) fresh, Exits 0).
Proof.
  apply (equal_width_target_rejected luma 4 image_3x4 fresh); reflexivity.
Defined.

(** ** C10: the height-reduction phase *)




(** * Further properties of the code *)

(** ** Loops, once more *)

Section LoopRuns.
Context {St : Type}.

(** What a counted loop that ran to its end says of each of its runs: the
    body succeeded there, from a state that the runs before left. *)
Lemma for_up_ran (P : Z → St → Prop) (body : Z → St → option St) (n : nat) :
  ∀ (i : Z) (s s' : St),
    for_up n i body s = Some s' →
    P i s →
    (∀ k t t', i ≤ k < i + Z.of_nat n → P k t → body k t = Some t' → P (k + 1) t') →
    P (i + Z.of_nat n) s' ∧
    ∀ k, i ≤ k < i + Z.of_nat n → ∃ t t', P k t ∧ body k t = Some t'.
Proof.
  induction n as [|n IH]; intros i s s' Hrun Hs Hstep.
  - simpl in Hrun. simplify_eq. split; [|intros; lia].
    by replace (i + Z.of_nat 0) with i by lia.
  - simpl in Hrun. destruct (body i s) as [t|] eqn:Ht; [simpl in Hrun|done].
    destruct (IH (i + 1) t s' Hrun) as [Hend Hruns].
    { apply (Hstep i s t); [lia|done|done]. }
    { intros k u u' Hk. apply Hstep. lia. }
    split.
    + by replace (i + Z.of_nat (S n)) with (i + 1 + Z.of_nat n) by lia.
    + intros k Hk. destruct (decide (k = i)) as [->|Hne].
      * by exists s, t.
      * apply Hruns. lia.
Qed.

Lemma for_range_ran (P : Z → St → Prop) (body : Z → St → option St) (lo hi : Z) (s s' : St) :
  for_range lo hi body s = Some s' →
  P lo s →
  (∀ k t t', lo ≤ k < hi → P k t → body k t = Some t' → P (k + 1) t') →
  (lo ≤ hi → P hi s') ∧
  ∀ k, lo ≤ k < hi → ∃ t t', P k t ∧ body k t = Some t'.
Proof.
  unfold for_range. intros Hrun Hs Hstep.
  destruct (for_up_ran P body (Z.to_nat (hi - lo)) lo s s' Hrun Hs) as [Hend Hruns].
  { intros k t t' Hk. apply Hstep. lia. }
  split.
  - intros Hle. by replace hi with (lo + Z.of_nat (Z.to_nat (hi - lo))) by lia.
  - intros k Hk. apply Hruns. lia.
Qed.
End LoopRuns.

Lemma forallb_seqZ (f : Z → bool) (m n : Z) :
  forallb f (seqZ m n) = true → ∀ k, m ≤ k < m + n → f k = true.
Proof.
  rewrite forallb_forall. intros Hall k Hk. apply Hall.
  apply list_elem_of_In, elem_of_seqZ. lia.
Qed.

(** ** The range of the energy *)

(** The three facts below are checked by running the floating-point
    operations on every 8-bit input. *)
Lemma differences_exact :
  forallb (λ a, forallb (difference_exact a) (seqZ 0 256)) (seqZ 0 256) = true.
Proof. vm_compute. reflexivity. Qed.

Lemma squares_exact : forallb square_exact (seqZ (-255) 511) = true.
Proof. vm_compute. reflexivity. Qed.

Lemma magnitudes_bounded :
  forallb (λ a, forallb (magnitude_bounded a) (seqZ 0 256)) (seqZ 0 256) = true.
Proof. vm_compute. reflexivity. Qed.

Lemma difference_8bit (a b : Z) :
  0 ≤ a ≤ 255 → 0 ≤ b ≤ 255 →
  PrimFloat.sub (to_double a) (to_double b) = signed_double (a - b).
Proof.
  intros Ha Hb. apply FloatAxioms.Leibniz.eqb_spec.
  pose proof (forallb_seqZ _ _ _ differences_exact a) as Hrow.
  apply (forallb_seqZ _ _ _ (Hrow ltac:(lia)) b). lia.
Qed.

Lemma magnitude_8bit (d1 d2 : Z) :
  -255 ≤ d1 ≤ 255 → -255 ≤ d2 ≤ 255 →
  let e := PrimFloat.sqrt (signed_double d1 * signed_double d1 +
                           signed_double d2 * signed_double d2)%float in
  PrimFloat.leb 0 e = true ∧ PrimFloat.leb e 361 = true.
Proof.
  intros H1 H2 e. unfold e.
  pose proof (forallb_seqZ _ _ _ squares_exact d1 ltac:(lia)) as S1.
  pose proof (forallb_seqZ _ _ _ squares_exact d2 ltac:(lia)) as S2.
  apply FloatAxioms.Leibniz.eqb_spec in S1, S2. rewrite S1, S2.
  pose proof (forallb_seqZ _ _ _ magnitudes_bounded (Z.abs d1) ltac:(lia)) as Hrow.
  pose proof (forallb_seqZ _ _ _ Hrow (Z.abs d2) ltac:(lia)) as Hb.
  unfold magnitude_bounded in Hb. by apply andb_true_iff in Hb.
Qed.

(** On 8-bit values every gradient is the double of an integer between
    -255 and 255. *)
Lemma spec_gradient_signed (g : Z → Z) (k n : Z) :
  0 ≤ k < n →
  (∀ k', 0 ≤ k' < n → 0 ≤ g k' ≤ 255) →
  ∃ d, -255 ≤ d ≤ 255 ∧ spec_gradient g k n = signed_double d.
Proof.
  intros Hk Hg. unfold spec_gradient.
  destruct (n =? 1) eqn:En; [by exists 0|]. apply Z.eqb_neq in En.
  destruct (k =? 0) eqn:E0; [|destruct (k =? n - 1) eqn:E1];
    rewrite ?Z.eqb_eq, ?Z.eqb_neq in *.
  - exists (g (k + 1) - g k). pose proof (Hg (k + 1)). pose proof (Hg k).
    split; [lia|]. apply difference_8bit; lia.
  - exists (g k - g (k - 1)). pose proof (Hg (k - 1)). pose proof (Hg k).
    split; [lia|]. apply difference_8bit; lia.
  - exists (g (k + 1) - g (k - 1)). pose proof (Hg (k + 1)). pose proof (Hg (k - 1)).
    split; [lia|]. apply difference_8bit; lia.
Qed.

(** X1.  On an image whose grayscale values are 8-bit, energyCal returns
    a field in which every value is a number between 0 and 361: never a
    NaN, never negative, never above 255 times the square root of 2
    rounded up. *)
Theorem energyCal_range (bgr2gray : Vec3b → Z) (img : Mat Vec3b) :
  Mat_full img → 1 ≤ rows img → 1 ≤ cols img →
  (∀ y x, 0 ≤ y < rows img → 0 ≤ x < cols img →
          0 ≤ pixel_gray bgr2gray img y x ≤ 255) →
  ∃ energy,
    energyCal bgr2gray img = Some energy ∧
    ∀ y x, 0 ≤ y < rows img → 0 ≤ x < cols img →
      ∃ e, Mat_at energy y x = Some e ∧
           PrimFloat.leb 0 e = true ∧ PrimFloat.leb e 361 = true.
Proof.
  intros Hfull Hrows Hcols Hgray.
  destruct (energyCal_spec bgr2gray img Hfull) as (energy & Hrun & _ & _ & Hcells);
    [lia..|].
  exists energy. split; [done|]. intros y x Hy Hx.
  eexists. split; [by apply Hcells|]. unfold spec_energy.
  destruct (spec_gradient_signed (λ x', pixel_gray bgr2gray img y x') x (cols img))
    as (dx & Hdx & ->); [done|by intros; apply Hgray|].
  destruct (spec_gradient_signed (λ y', pixel_gray bgr2gray img y' x) y (rows img))
    as (dy & Hdy & ->); [done|by intros; apply Hgray|].
  by apply magnitude_8bit.
Qed.

Lemma image_5x4_8bit (y x : Z) :
  0 ≤ y < rows image_5x4 → 0 ≤ x < cols image_5x4 →
  0 ≤ pixel_gray luma image_5x4 y x ≤ 255.
Proof.
  simpl. intros Hy Hx.
  assert (y = 0 ∨ y = 1 ∨ y = 2 ∨ y = 3) as Hys by lia.
  assert (x = 0 ∨ x = 1 ∨ x = 2 ∨ x = 3 ∨ x = 4) as Hxs by lia.
  destruct Hys as [-> | [-> | [-> | ->]]];
    destruct Hxs as [-> | [-> | [-> | [-> | ->]]]]; vm_compute; split; discriminate.
Qed.

Lemma energyCal_range_witness :
  ∃ energy,
    energyCal luma image_5x4 = Some energy ∧
    ∀ y x, 0 ≤ y < rows image_5x4 → 0 ≤ x < cols image_5x4 →
      ∃ e, Mat_at energy y x = Some e ∧
           PrimFloat.leb 0 e = true ∧ PrimFloat.leb e 361 = true.
Proof.
  apply (energyCal_range luma image_5x4);
    [exact image_5x4_full | simpl; lia | simpl; lia | exact image_5x4_8bit].
Defined.

(** X2.  On a uniform image, whatever its colour (of 8-bit luminance),
    energyCal returns the zero field. *)
Theorem energyCal_uniform (bgr2gray : Vec3b → Z) (r c : Z) (p : Vec3b) :
  1 ≤ r → 1 ≤ c → 0 ≤ bgr2gray p ≤ 255 →
  ∃ energy,
    energyCal bgr2gray (uniform r c p) = Some energy ∧
    rows energy = r ∧ cols energy = c ∧
    ∀ y x, 0 ≤ y < r → 0 ≤ x < c → Mat_at energy y x = Some 0%float.
Proof.
  intros Hr Hc Hp.
  assert (Mat_full (uniform r c p)) as Hfull by (intros i j _ _; by eexists).
  destruct (energyCal_spec bgr2gray (uniform r c p) Hfull)
    as (energy & Hrun & Hre & Hce & Hcells); [simpl; lia..|].
  exists energy. repeat split; [done..|]. intros y x Hy Hx.
  rewrite Hcells by done. f_equal.
  assert (∀ (g : Z → Z) k n,
            0 ≤ k < n → (∀ k', 0 ≤ k' < n → g k' = bgr2gray p) →
            spec_gradient g k n = 0%float) as Hflat.
  { intros g k n Hk Hg. unfold spec_gradient.
    destruct (n =? 1) eqn:En; [done|]. apply Z.eqb_neq in En.
    destruct (k =? 0) eqn:E0; [|destruct (k =? n - 1) eqn:E1];
      rewrite ?Z.eqb_eq, ?Z.eqb_neq in *;
      rewrite ?(Hg (k + 1)), ?(Hg k), ?(Hg (k - 1)) by lia;
      rewrite difference_8bit by lia;
      by replace (bgr2gray p - bgr2gray p) with 0 by lia. }
  assert (∀ y' x', 0 ≤ y' < r → 0 ≤ x' < c →
            pixel_gray bgr2gray (uniform r c p) y' x' = bgr2gray p) as Hg.
  { intros y' x' Hy' Hx'. unfold pixel_gray.
    rewrite Mat_at_inside by (simpl; lia). done. }
  unfold spec_energy.
  rewrite (Hflat (λ x', pixel_gray bgr2gray (uniform r c p) y x') x)
    by (done || intros; apply Hg; simpl in *; lia).
  rewrite (Hflat (λ y', pixel_gray bgr2gray (uniform r c p) y' x) y)
    by (done || intros; apply Hg; simpl in *; lia).
  done.
Qed.

Lemma energyCal_uniform_witness :
  ∃ energy,
    energyCal luma (uniform 3 4 (gray 128)) = Some energy ∧
    rows energy = 3 ∧ cols energy = 4 ∧
    ∀ y x, 0 ≤ y < 3 → 0 ≤ x < 4 → Mat_at energy y x = Some 0%float.
Proof.
  apply (energyCal_uniform luma 3 4 (gray 128)); [lia | lia | vm_compute; split; discriminate].
Defined.

(** ** The seam and the cumulative energy *)

(** The value that the dynamic programme takes above column [j] is the
    value at the column that backtracking chooses above [j]: the two make
    the same comparisons in the same order. *)
Lemma best_above_choice (row : Z → float) (j cols : Z) :
  best_above row j cols = row (spec_choice row j cols).
Proof.
  unfold best_above, spec_choice, neighbours, fmin.
  destruct (0 <? j); destruct (j <? cols - 1); simpl;
    repeat match goal with
           | |- context [if PrimFloat.ltb ?a ?b then _ else _] =>
               destruct (PrimFloat.ltb a b) eqn:?
           end; congruence.
Qed.

Lemma cumulative_step (energy cum : Mat float) (i j : Z) :
  Mat_full energy → 1 ≤ cols energy →
  cumulative energy = Some cum →
  1 ≤ i < rows energy → 0 ≤ j < cols energy →
  value cum i j
  = (value energy i j + best_above (value cum (i - 1)) j (cols energy))%float.
Proof.
  intros Hfull Hcols Hcum Hi Hj.
  destruct (cumulative_spec energy Hfull) as (cum' & Hcum' & Hr & Hc & Hcells); [lia..|].
  simplify_eq. unfold value at 1. rewrite Hcells by lia. simpl.
  rewrite (spec_cum_step energy i j) by lia. f_equal.
  apply best_above_ext; [done|].
  intros j' Hj'. unfold value. rewrite Hcells by lia. done.
Qed.

(** X3.  The seam that seamSearch returns realises the cumulative energy:
    the energy summed along the seam from the top row down to any row is
    the cumulative energy at the seam's pixel in that row; at the last
    row it is a least value of the cumulative row (the row holding no
    NaN). *)
Theorem seam_energy_is_cumulative (energy : Mat float) :
  Mat_full energy → 1 ≤ rows energy → 1 ≤ cols energy →
  ∃ cum seam,
    cumulative energy = Some cum ∧ seamSearch energy = Some seam ∧
    (∀ i, 0 ≤ i < rows energy →
          path_energy (value energy) (seam_col seam) (Z.to_nat i)
          = value cum i (seam_col seam i)) ∧
    (row_ordered cum (rows energy - 1) →
     ∀ k, 0 ≤ k < cols energy →
          PrimFloat.ltb (value cum (rows energy - 1) k)
            (path_energy (value energy) (seam_col seam) (Z.to_nat (rows energy - 1)))
          = false).
Proof.
  intros Hfull Hrows Hcols.
  destruct (seamSearch_spec energy Hfull Hrows Hcols)
    as (cum & seam & c0 & Hcum & Hrun & Hmin & Hlast & Hlen & Hseam).
  destruct (cumulative_full energy cum Hfull) as (Hcfull & Hr & Hc); [lia..|done|].
  rewrite Hr, Hc in *.
  assert (∀ i, 0 ≤ i < rows energy → 0 ≤ seam_col seam i < cols energy) as Hcol.
  { intros i Hi. destruct (Hseam i) as (c & Hget & Hrange & _); [lia|].
    unfold seam_col. by rewrite Hget. }
  assert (∀ n : nat, Z.of_nat n < rows energy →
            path_energy (value energy) (seam_col seam) n
            = value cum (Z.of_nat n) (seam_col seam (Z.of_nat n))) as Hpath.
  { induction n as [|n IH]; intros Hn.
    - simpl. unfold value at 2.
      pose proof (Hcol 0 ltac:(lia)) as H0.
      destruct (cumulative_spec energy Hfull) as (cum' & Hcum' & _ & _ & Hcells); [lia..|].
      simplify_eq. change (Z.of_nat 0) with 0. rewrite Hcells by lia. done.
    - cbn [path_energy]. rewrite IH by lia.
      rewrite (cumulative_step energy cum (Z.of_nat (S n))) by (done || lia || (apply Hcol; lia)).
      f_equal. rewrite best_above_choice.
      replace (Z.of_nat (S n) - 1) with (Z.of_nat n) by lia. f_equal.
      destruct (Hseam (Z.of_nat n)) as (c & Hget & _ & Hrule); [lia|].
      destruct Hrule as (p & Hp & ->); [lia|].
      replace (Z.of_nat n + 1) with (Z.of_nat (S n)) in Hp by lia.
      unfold seam_col. by rewrite Hget, Hp. }
  exists cum, seam. split; [done|]. split; [done|]. split.
  - intros i Hi. rewrite Hpath by lia. by replace (Z.of_nat (Z.to_nat i)) with i by lia.
  - intros Hord k Hk. rewrite Hpath by lia.
    replace (Z.of_nat (Z.to_nat (rows energy - 1))) with (rows energy - 1) by lia.
    destruct (minLoc_x_leftmost cum (rows energy - 1) Hcfull)
      as (c & Hc' & _ & _ & Hleft); [lia..|].
    assert (c = c0) as -> by congruence.
    unfold seam_col. rewrite Hlast. simpl.
    destruct (Hleft Hord) as [Hleast _]. apply Hleast. lia.
Qed.

Lemma seam_energy_is_cumulative_witness :
  ∃ cum seam,
    cumulative energy_3x3 = Some cum ∧ seamSearch energy_3x3 = Some seam ∧
    (∀ i, 0 ≤ i < rows energy_3x3 →
          path_energy (value energy_3x3) (seam_col seam) (Z.to_nat i)
          = value cum i (seam_col seam i)) ∧
    (row_ordered cum (rows energy_3x3 - 1) →
     ∀ k, 0 ≤ k < cols energy_3x3 →
          PrimFloat.ltb (value cum (rows energy_3x3 - 1) k)
            (path_energy (value energy_3x3) (seam_col seam)
               (Z.to_nat (rows energy_3x3 - 1)))
          = false).
Proof.
  apply (seam_energy_is_cumulative energy_3x3);
    [exact energy_3x3_full | simpl; lia | simpl; lia].
Defined.

(** ** Flat fields *)

Lemma buf_get_Some_lookup (b : buffer) (i v : Z) :
  buf_get b i = Some v → b !! Z.to_nat i = Some (Some v).
Proof.
  unfold buf_get. destruct (0 <=? i); [|done].
  destruct (b !! Z.to_nat i) as [[w|]|]; simpl; intros; by simplify_eq.
Qed.

Lemma best_above_flat (f : Z → float) (v : float) (j cols : Z) :
  0 ≤ j < cols → (∀ j', 0 ≤ j' < cols → f j' = v) → best_above f j cols = v.
Proof.
  intros Hj Hf. unfold best_above, fmin. rewrite (Hf j) by lia.
  destruct (0 <? j) eqn:E0; destruct (j <? cols - 1) eqn:E1;
    rewrite ?(Hf (j - 1)), ?(Hf (j + 1)) by lia;
    rewrite ?FloatOrder.ltb_irrefl; rewrite ?FloatOrder.ltb_irrefl; done.
Qed.

Lemma minLoc_x_flat (m : Mat float) (r : Z) :
  Mat_full m → 0 ≤ r < rows m → 1 ≤ cols m →
  (∀ k, 0 ≤ k < cols m → value m r k = value m r 0) →
  minLoc_x m r = Some 0.
Proof.
  intros Hfull Hr Hcols Hflat. unfold minLoc_x.
  rewrite value_at by (done || lia). simpl.
  use_for_range (λ (j : Z) (best : Z * float), best = (0, value m r 0)) Hloop.
  destruct Hloop as (best & Hrun & ->).
  - done.
  - done.
  - intros j best Hj ->. rewrite value_at by (done || lia). simpl.
    rewrite Hflat by lia. rewrite FloatOrder.ltb_irrefl. by eexists.
  - by rewrite Hrun.
Qed.

(** X4.  On an energy field whose rows are each flat, every column costs
    the same, and seamSearch returns column 0 in every row: the start
    column is the leftmost of the tied columns and the straight column
    wins every tie on the way up. *)
Theorem seamSearch_flat (energy : Mat float) :
  Mat_full energy → 1 ≤ rows energy → 1 ≤ cols energy →
  (∀ i j, 0 ≤ i < rows energy → 0 ≤ j < cols energy →
          value energy i j = value energy i 0) →
  seamSearch energy = Some (replicate (Z.to_nat (rows energy)) (Some 0)).
Proof.
  intros Hfull Hrows Hcols Hflat.
  destruct (seamSearch_spec energy Hfull Hrows Hcols)
    as (cum & seam & c0 & Hcum & Hrun & Hmin & Hlast & Hlen & Hseam).
  destruct (cumulative_spec energy Hfull) as (cum' & Hcum' & _ & _ & Hcells); [lia..|].
  destruct (cumulative_full energy cum Hfull) as (Hcfull & Hr & Hc); [lia..|done|].
  simplify_eq. rewrite Hr, Hc in *.
  (* the cumulative rows are flat too *)
  assert (∀ n : nat, Z.of_nat n < rows energy → ∀ j, 0 ≤ j < cols energy →
            spec_cum energy (Z.of_nat n) j = spec_cum energy (Z.of_nat n) 0) as Hspec.
  { induction n as [|n IH]; intros Hn j Hj.
    - change (Z.of_nat 0) with 0. rewrite !spec_cum_0. apply Hflat; lia.
    - rewrite (spec_cum_step energy (Z.of_nat (S n)) j),
        (spec_cum_step energy (Z.of_nat (S n)) 0) by lia.
      rewrite (Hflat (Z.of_nat (S n)) j) by lia. f_equal.
      replace (Z.of_nat (S n) - 1) with (Z.of_nat n) by lia.
      rewrite !(best_above_flat _ (spec_cum energy (Z.of_nat n) 0)); try done; try lia;
        intros j' Hj'; apply IH; lia. }
  assert (∀ i j, 0 ≤ i < rows energy → 0 ≤ j < cols energy →
            value cum i j = value cum i 0) as Hcflat.
  { intros i j Hi Hj. unfold value. rewrite !Hcells by lia. simpl.
    replace i with (Z.of_nat (Z.to_nat i)) by lia. apply Hspec; lia. }
  (* the start column *)
  assert (c0 = 0) as ->.
  { rewrite minLoc_x_flat in Hmin; [congruence|done|lia|lia|].
    rewrite Hc. intros k Hk. apply Hcflat; lia. }
  (* the columns above *)
  assert (∀ n : nat, Z.of_nat n < rows energy →
            buf_get seam (rows energy - 1 - Z.of_nat n) = Some 0) as Hzero.
  { induction n as [|n IH]; intros Hn.
    - by replace (rows energy - 1 - Z.of_nat 0) with (rows energy - 1) by lia.
    - destruct (Hseam (rows energy - 1 - Z.of_nat (S n))) as (c & Hget & _ & Hrule); [lia|].
      destruct Hrule as (p & Hp & ->); [lia|].
      replace (rows energy - 1 - Z.of_nat (S n) + 1)
        with (rows energy - 1 - Z.of_nat n) in Hp by lia.
      rewrite IH in Hp by lia. simplify_eq. rewrite Hget. f_equal.
      apply spec_choice_straight; [lia|].
      intros Hright. rewrite (Hcflat _ (0 + 1)) by lia. apply FloatOrder.ltb_irrefl. }
  rewrite Hrun. f_equal. apply list_eq. intros k.
  destruct (decide (k < Z.to_nat (rows energy))%nat) as [Hk|Hk].
  - rewrite lookup_replicate_2 by done.
    specialize (Hzero (Z.to_nat (rows energy) - 1 - k)%nat ltac:(lia)).
    replace (rows energy - 1 - Z.of_nat (Z.to_nat (rows energy) - 1 - k)) with (Z.of_nat k)
      in Hzero by lia.
    apply buf_get_Some_lookup in Hzero. by rewrite Nat2Z.id in Hzero.
  - rewrite !lookup_ge_None_2; [done|rewrite length_replicate; lia|lia].
Qed.

Lemma energy_flat_2x3_full : Mat_full energy_flat_2x3.
Proof. apply Mat_of_rows_full. repeat constructor. Qed.

Lemma seamSearch_flat_witness :
  seamSearch energy_flat_2x3
  = Some (replicate (Z.to_nat (rows energy_flat_2x3)) (Some 0)).
Proof.
  apply (seamSearch_flat energy_flat_2x3);
    [exact energy_flat_2x3_full | simpl; lia | simpl; lia |].
  simpl. intros i j Hi Hj.
  assert (i = 0 ∨ i = 1 ∨ i = 2) as [-> | [-> | ->]] by lia;
    assert (j = 0 ∨ j = 1) as [-> | ->] by lia; reflexivity.
Defined.

(** ** What a successful removal says of the seam *)

Lemma Mat_at_ran {A : Type} (m : Mat A) (i j : Z) (v : A) :
  Mat_at m i j = Some v → 0 ≤ i < rows m ∧ 0 ≤ j < cols m.
Proof.
  unfold Mat_at, inside. destruct (0 <=? i) eqn:?, (i <? rows m) eqn:?,
    (0 <=? j) eqn:?, (j <? cols m) eqn:?; simpl; intros; done || lia.
Qed.

Lemma Mat_set_ran {A : Type} (m m' : Mat A) (i j : Z) (v : A) :
  Mat_set m i j v = Some m' →
  0 ≤ i < rows m ∧ 0 ≤ j < cols m ∧ rows m' = rows m ∧ cols m' = cols m.
Proof.
  unfold Mat_set, inside. destruct (0 <=? i) eqn:?, (i <? rows m) eqn:?,
    (0 <=? j) eqn:?, (j <? cols m) eqn:?; simpl; intros; simplify_eq; simpl; lia.
Qed.

(** The copy loops of removeVerSeam keep the header of the output. *)
Lemma copy_loop_header (img : Mat Vec3b) (i : Z) (dst : Z → Z) (lo hi : Z)
    (new new' : Mat Vec3b) :
  for_range lo hi (λ j newImg, p ← Mat_at img i j; Mat_set newImg i (dst j) p) new
  = Some new' →
  (rows new' = rows new ∧ cols new' = cols new) ∧
  ∀ j, lo ≤ j < hi → 0 ≤ j < cols img ∧ 0 ≤ dst j < cols new.
Proof.
  intros Hrun.
  destruct (for_range_ran (λ _ t, rows t = rows new ∧ cols t = cols new) _ lo hi new new' Hrun)
    as [Hend Hruns].
  - done.
  - intros j t t' Hj [Hr Hc] Hbody.
    destruct (Mat_at img i j) as [p|]; [simpl in Hbody|done].
    apply Mat_set_ran in Hbody. lia.
  - split.
    + destruct (decide (lo ≤ hi)) as [Hle|Hgt]; [by apply Hend|].
      unfold for_range in Hrun. replace (Z.to_nat (hi - lo)) with O in Hrun by lia.
      simpl in Hrun. by simplify_eq.
    + intros j Hj. destruct (Hruns j Hj) as (t & t' & [Hr Hc] & Hbody).
      destruct (Mat_at img i j) as [p|] eqn:Hp; [simpl in Hbody|done].
      apply Mat_at_ran in Hp. apply Mat_set_ran in Hbody. lia.
Qed.

(** X5.  removeVerSeam returns an image exactly when every entry of the
    seam is written and names a column of the image: an entry outside
    [0, cols) makes one of the copy loops read or write outside a matrix. *)
Theorem removeVerSeam_succeeds_iff (img : Mat Vec3b) (seam : buffer) :
  Mat_full img → 0 ≤ rows img → 1 ≤ cols img →
  is_Some (removeVerSeam img seam) ↔ seam_valid seam (rows img) (cols img).
Proof.
  intros Hfull Hrows Hcols. split.
  - intros [out Hrun] i Hi. unfold removeVerSeam in Hrun.
    replace (cols img - 1 <? 0) with false in Hrun by lia.
    destruct (for_range_ran
                (λ _ (t : Mat Vec3b), rows t = rows img ∧ cols t = cols img - 1)
                _ 0 (rows img) _ out Hrun) as [_ Hruns].
    + done.
    + intros k t t' Hk [Hr Hc] Hbody.
      destruct (buf_get seam k) as [c|]; [simpl in Hbody|done].
      destruct (for_range 0 c _ t) as [t1|] eqn:H1; [simpl in Hbody|done].
      pose proof (copy_loop_header img k (λ j, j) 0 c t t1 H1) as [[Hr1 Hc1] _].
      pose proof (copy_loop_header img k (λ j, j - 1) (c + 1) (cols img) t1 t' Hbody)
        as [[Hr2 Hc2] _].
      lia.
    + destruct (Hruns i Hi) as (t & t' & [Hr Hc] & Hbody).
      destruct (buf_get seam i) as [c|]; [simpl in Hbody|done].
      exists c. split; [done|].
      destruct (for_range 0 c _ t) as [t1|] eqn:H1; [simpl in Hbody|done].
      pose proof (copy_loop_header img i (λ j, j) 0 c t t1 H1) as [[Hr1 Hc1] Hleft].
      pose proof (copy_loop_header img i (λ j, j - 1) (c + 1) (cols img) t1 t' Hbody)
        as [_ Hright].
      split.
      * destruct (decide (0 ≤ c)) as [|Hneg]; [done|].
        specialize (Hright (c + 1) ltac:(lia)). lia.
      * destruct (decide (c < cols img)) as [|Hbig]; [done|].
        specialize (Hleft (cols img - 1) ltac:(lia)). lia.
  - intros Hvalid.
    destruct (removeVerSeam_spec img seam Hfull Hrows Hcols Hvalid) as (out & Hrun & _).
    by exists out.
Qed.

Lemma removeVerSeam_succeeds_iff_witness :
  is_Some (removeVerSeam image_3x4 (Some <$> [0; 1; 2; 1]))
  ↔ seam_valid (Some <$> [0; 1; 2; 1]) (rows image_3x4) (cols image_3x4).
Proof.
  apply (removeVerSeam_succeeds_iff image_3x4 (Some <$> [0; 1; 2; 1]));
    [exact image_3x4_full | simpl; lia | simpl; lia].
Defined.

(** A seam with an entry outside the image: the left copy loop of row 0
    writes outside the output. *)
Example removeVerSeam_seam_outside :
  removeVerSeam image_3x4 (Some <$> [3; 1; 2; 1]) = None.
Proof. vm_compute. reflexivity. Qed.

(** ** The driver, run by run *)

Section DriverRuns.
Variable bgr2gray : Vec3b → Z.

(** X6.  One run of the body of the first loop removes a connected
    vertical seam: the image keeps its rows and loses one column; in
    every row exactly the seam's pixel is dropped and the others keep
    their order; and the seam moves by at most one column from a row to
    the next. *)
Theorem width_step_removes_connected_seam (img : Mat Vec3b) :
  Mat_full img → 1 ≤ rows img → 1 ≤ cols img →
  ∃ seam img',
    width_step bgr2gray img = Some img' ∧
    rows img' = rows img ∧ cols img' = cols img - 1 ∧
    ∀ i, 0 ≤ i < rows img →
         0 ≤ seam_col seam i < cols img ∧
         (i < rows img - 1 → Z.abs (seam_col seam i - seam_col seam (i + 1)) ≤ 1) ∧
         ∀ j, 0 ≤ j < cols img - 1 →
              ∃ p, Mat_at img' i j = Some p ∧
                   Mat_at img i (if j <? seam_col seam i then j else j + 1) = Some p.
Proof.
  intros Hfull Hrows Hcols.
  destruct (width_step_spec bgr2gray img Hfull Hrows Hcols)
    as (energy & seam & img' & He & Hs & _ & Hstep & Hvalid & Hfull' & Hr & Hc & Hcells).
  destruct (energyCal_full bgr2gray img energy Hfull) as (Hefull & Her & Hec); [lia..|done|].
  destruct (seamSearch_spec energy Hefull) as (cum & seam' & c0 & Hcum & Hs' & _ & _ & _ & Hseam);
    [lia..|].
  destruct (cumulative_full energy cum Hefull) as (_ & Hcr & Hcc); [lia..|done|].
  assert (seam' = seam) as -> by congruence.
  rewrite Hcr, Hcc, Her, Hec in *.
  exists seam, img'. do 3 (split; [done|]). intros i Hi.
  destruct (Hseam i) as (c & Hget & Hrange & Hrule); [lia|].
  assert (seam_col seam i = c) as Hcol by (unfold seam_col; by rewrite Hget).
  rewrite Hcol. split; [done|]. split.
  - intros Hnext. destruct (Hrule Hnext) as (q & Hq & ->).
    destruct (Hseam (i + 1)) as (q' & Hq' & Hqrange & _); [lia|].
    assert (q' = q) as -> by congruence.
    unfold seam_col. rewrite Hq. simpl.
    pose proof (spec_choice_near (value cum i) q (cols img) Hqrange). lia.
  - intros j Hj. rewrite (Hcells i j c) by done. unfold source_col.
    destruct (Hfull i (if j <? c then j else j + 1)) as [p Hp];
      [lia|destruct (j <? c); lia|].
    exists p. rewrite Mat_at_inside by (done || destruct (j <? c); lia). done.
Qed.

(** X7.  On an accepted target seamCar is W - W' runs of the width step
    followed by H - H' runs of the height step: first all the vertical
    seams, then all the horizontal ones. *)
Theorem seamCar_is_runs (fuel : nat) (img : Mat Vec3b) (newWidth newHeight : Z) (w : world) :
  Mat_full img →
  1 ≤ newWidth < cols img → 1 ≤ newHeight < rows img →
  cols img - newWidth ≤ Z.of_nat fuel → rows img - newHeight ≤ Z.of_nat fuel →
  ∃ mid out,
    after_runs (Z.to_nat (cols img - newWidth)) (width_step bgr2gray) img = Some mid ∧
    after_runs (Z.to_nat (rows img - newHeight)) (height_step bgr2gray) mid = Some out ∧
    seamCar bgr2gray fuel img newWidth newHeight w = (w, Returns out).
Proof.
  intros Hfull Hw Hh Hfw Hfh. unfold seamCar.
  replace ((rows img <=? newHeight) || (cols img <=? newWidth)) with false
    by (symmetry; apply orb_false_intro; lia).
  destruct (while_runs (reducing_width img newWidth) (λ s, cols s - newWidth)
              (λ s, newWidth <? cols s) (width_step bgr2gray))
    with (fuel := fuel) (s := img) as (mid & Hruns1 & Hrun1 & (Hmfull & Hmr & Hmc) & Hμ1).
  - intros s _. rewrite Z.ltb_lt. lia.
  - intros s (Hsfull & Hsr & Hsc) Hpos.
    destruct (width_step_spec bgr2gray s Hsfull) as
      (_ & _ & s' & _ & _ & _ & Hstep & _ & Hfull' & Hr' & Hc' & _); [lia..|].
    exists s'. unfold reducing_width. repeat split; [done|done|lia|lia|lia].
  - unfold reducing_width. repeat split; [done|lia].
  - lia.
  - destruct (while_runs (reducing_height newWidth newHeight) (λ s, rows s - newHeight)
                (λ s, newHeight <? rows s) (height_step bgr2gray))
      with (fuel := fuel) (s := mid) as (out & Hruns2 & Hrun2 & _).
    + intros s _. rewrite Z.ltb_lt. lia.
    + intros s (Hsfull & Hsc & Hsr) Hpos.
      destruct (height_step_spec bgr2gray s Hsfull) as
        (_ & s' & _ & Hstep & _ & Hfull' & Hr' & Hc' & _); [lia..|].
      exists s'. unfold reducing_height. repeat split; [done|done|lia|lia|lia].
    + unfold reducing_height. repeat split; [done|lia|lia].
    + lia.
    + exists mid, out. rewrite Hrun1, Hrun2. rewrite Hmr in Hruns2. done.
Qed.

(** The image that seamCar returns, with where each of its pixels comes
    from. *)
Lemma seamCar_shifted (fuel : nat) (img : Mat Vec3b)
    (newWidth newHeight : Z) (w : world) :
  Mat_full img →
  1 ≤ newWidth < cols img → 1 ≤ newHeight < rows img →
  cols img - newWidth ≤ Z.of_nat fuel → rows img - newHeight ≤ Z.of_nat fuel →
  ∃ out,
    seamCar bgr2gray fuel img newWidth newHeight w = (w, Returns out) ∧
    cols out = newWidth ∧ rows out = newHeight ∧
    ∀ i j, 0 ≤ i < newHeight → 0 ≤ j < newWidth →
      ∃ i' j' p,
        i ≤ i' ≤ i + (rows img - newHeight) ∧ j ≤ j' ≤ j + (cols img - newWidth) ∧
        Mat_at out i j = Some p ∧ Mat_at img i' j' = Some p.
Proof.
  intros Hfull Hw Hh Hfw Hfh. unfold seamCar.
  replace ((rows img <=? newHeight) || (cols img <=? newWidth)) with false
    by (symmetry; apply orb_false_intro; lia).
  destruct (while_inv
              (λ s, reducing_width img newWidth s ∧ cols s ≤ cols img ∧
                    shifted_from img 0 (cols img - cols s) s)
              (λ s, cols s - newWidth)
              (λ s, newWidth <? cols s) (width_step bgr2gray))
    with (fuel := fuel) (s := img)
    as (mid & Hrun1 & ((Hmfull & Hmr & Hmc) & Hmle & Hmfrom) & Hμ1).
  - intros s _. rewrite Z.ltb_lt. lia.
  - intros s ((Hsfull & Hsr & Hsc) & Hsle & Hfrom) Hpos.
    destruct (width_step_spec bgr2gray s Hsfull) as
      (_ & seam & s' & _ & _ & _ & Hstep & Hvalid & Hfull' & Hr' & Hc' & Hcells); [lia..|].
    exists s'. split; [done|]. split; [|lia].
    split; [unfold reducing_width; repeat split; [done|lia|lia]|]. split; [lia|].
    intros i j Hi Hj. destruct (Hvalid i) as (c & Hget & Hcr); [lia|].
    rewrite (Hcells i j c) by (done || lia).
    destruct (Hfrom i (source_col c j)) as (i' & j' & Hi' & Hj' & Heq);
      [lia|unfold source_col; destruct (j <? c); lia|].
    exists i', j'. split; [lia|]. split; [|done].
    unfold source_col in Hj'. destruct (j <? c); lia.
  - split; [unfold reducing_width; repeat split; [done|lia]|]. split; [lia|].
    intros i j Hi Hj. exists i, j. repeat split; lia.
  - done.
  - rewrite Hrun1. assert (cols mid = newWidth) as Hmw by lia.
    destruct (while_inv
                (λ s, reducing_height newWidth newHeight s ∧ rows s ≤ rows img ∧
                      shifted_from mid (rows img - rows s) 0 s)
                (λ s, rows s - newHeight)
                (λ s, newHeight <? rows s) (height_step bgr2gray))
      with (fuel := fuel) (s := mid)
      as (out & Hrun2 & ((Hofull & Hoc & Hor) & Hole & Hofrom) & Hμ2).
    + intros s _. rewrite Z.ltb_lt. lia.
    + intros s ((Hsfull & Hsc & Hsr) & Hsle & Hfrom) Hpos.
      destruct (height_step_spec bgr2gray s Hsfull) as
        (seam & s' & _ & Hstep & Hvalid & Hfull' & Hr' & Hc' & Hcells); [lia..|].
      exists s'. split; [done|]. split; [|lia].
      split; [unfold reducing_height; repeat split; [done|lia|lia]|]. split; [lia|].
      intros i j Hi Hj. destruct (Hvalid j) as (c & Hget & Hcr); [lia|].
      rewrite (Hcells i j c) by (done || lia).
      destruct (Hfrom (source_col c i) j) as (i' & j' & Hi' & Hj' & Heq);
        [unfold source_col; destruct (i <? c); lia|lia|].
      exists i', j'. split; [|split; [lia|done]].
      unfold source_col in Hi'. destruct (i <? c); lia.
    + split; [unfold reducing_height; repeat split; [done|lia|lia]|]. split; [lia|].
      intros i j Hi Hj. exists i, j. repeat split; lia.
    + lia.
    + exists out. rewrite Hrun2. split; [done|]. split; [done|]. split; [lia|].
      intros i j Hi Hj.
      destruct (Hofrom i j) as (i1 & j1 & Hi1 & Hj1 & Heq1); [lia..|].
      destruct (Hmfrom i1 j1) as (i2 & j2 & Hi2 & Hj2 & Heq2); [lia..|].
      destruct (Hofull i j) as [p Hp]; [lia..|].
      exists i2, j2, p. split; [lia|]. split; [lia|].
      rewrite <- Heq2, <- Heq1. rewrite Mat_at_inside by lia. done.
Qed.
(** X8.  On an accepted target every pixel of the image that seamCar
    returns is a pixel of the input, unchanged, found at most H - H' rows
    below and W - W' columns to the right of its place in the result:
    nothing is interpolated and nothing moves up or left. *)
Theorem seamCar_pixels_from_input (fuel : nat) (img : Mat Vec3b)
    (newWidth newHeight : Z) (w : world) :
  Mat_full img →
  1 ≤ newWidth < cols img → 1 ≤ newHeight < rows img →
  cols img - newWidth ≤ Z.of_nat fuel → rows img - newHeight ≤ Z.of_nat fuel →
  ∃ out,
    seamCar bgr2gray fuel img newWidth newHeight w = (w, Returns out) ∧
    ∀ i j, 0 ≤ i < newHeight → 0 ≤ j < newWidth →
      ∃ i' j' p,
        i ≤ i' ≤ i + (rows img - newHeight) ∧ j ≤ j' ≤ j + (cols img - newWidth) ∧
        Mat_at out i j = Some p ∧ Mat_at img i' j' = Some p.
Proof.
  intros Hfull Hw Hh Hfw Hfh.
  destruct (seamCar_shifted fuel img newWidth newHeight w Hfull Hw Hh Hfw Hfh)
    as (out & Hrun & _ & _ & Hfrom).
  by exists out.
Qed.

(** X11.  A uniform image is resized to a uniform image of the same
    colour: on an accepted target seamCar returns the image of the target
    dimensions whose every pixel is the input's colour. *)
Theorem seamCar_uniform (fuel : nat) (r c : Z) (p : Vec3b) (newWidth newHeight : Z) (w : world) :
  1 ≤ newWidth < c → 1 ≤ newHeight < r →
  c - newWidth ≤ Z.of_nat fuel → r - newHeight ≤ Z.of_nat fuel →
  ∃ out,
    seamCar bgr2gray fuel (uniform r c p) newWidth newHeight w = (w, Returns out) ∧
    cols out = newWidth ∧ rows out = newHeight ∧
    ∀ i j, 0 ≤ i < newHeight → 0 ≤ j < newWidth → Mat_at out i j = Some p.
Proof.
  intros Hw Hh Hfw Hfh.
  assert (Mat_full (uniform r c p)) as Hfull by (intros i j _ _; by eexists).
  destruct (seamCar_shifted fuel (uniform r c p) newWidth newHeight w Hfull Hw Hh Hfw Hfh)
    as (out & Hrun & Hc & Hr & Hfrom).
  exists out. do 3 (split; [done|]). intros i j Hi Hj.
  destruct (Hfrom i j Hi Hj) as (i' & j' & q & _ & _ & Hout & Hin).
  rewrite Hout. unfold Mat_at in Hin. simpl in Hin.
  destruct (inside (uniform r c p) i' j'); [congruence|done].
Qed.
End DriverRuns.

Lemma width_step_removes_connected_seam_witness :
  ∃ seam img',
    width_step luma image_5x4 = Some img' ∧
    rows img' = rows image_5x4 ∧ cols img' = cols image_5x4 - 1 ∧
    ∀ i, 0 ≤ i < rows image_5x4 →
         0 ≤ seam_col seam i < cols image_5x4 ∧
         (i < rows image_5x4 - 1 → Z.abs (seam_col seam i - seam_col seam (i + 1)) ≤ 1) ∧
         ∀ j, 0 ≤ j < cols image_5x4 - 1 →
              ∃ p, Mat_at img' i j = Some p ∧
                   Mat_at image_5x4 i (if j <? seam_col seam i then j else j + 1) = Some p.
Proof.
  apply (width_step_removes_connected_seam luma image_5x4);
    [exact image_5x4_full | simpl; lia | simpl; lia].
Defined.

Lemma seamCar_is_runs_witness :
  ∃ mid out,
    after_runs (Z.to_nat (cols image_5x4 - 3)) (width_step luma) image_5x4 = Some mid ∧
    after_runs (Z.to_nat (rows image_5x4 - 2)) (height_step luma) mid = Some out ∧
    seamCar luma 2 image_5x4 3 2 fresh = (fresh, Returns out).
Proof.
  apply (seamCar_is_runs luma 2 image_5x4 3 2 fresh);
    [exact image_5x4_full | simpl; lia | simpl; lia | simpl; lia | simpl; lia].
Defined.

Lemma seamCar_pixels_from_input_witness :
  ∃ out,
    seamCar luma 2 image_5x4 3 2 fresh = (fresh, Returns out) ∧
    ∀ i j, 0 ≤ i < 2 → 0 ≤ j < 3 →
      ∃ i' j' p,
        i ≤ i' ≤ i + (rows image_5x4 - 2) ∧ j ≤ j' ≤ j + (cols image_5x4 - 3) ∧
        Mat_at out i j = Some p ∧ Mat_at image_5x4 i' j' = Some p.
Proof.
  apply (seamCar_pixels_from_input luma 2 image_5x4 3 2 fresh);
    [exact image_5x4_full | simpl; lia | simpl; lia | simpl; lia | simpl; lia].
Defined.

(** ** main *)

Section MainFacts.
Variable bgr2gray : Vec3b → Z.

(** seamCar never touches the saved file. *)
Lemma seamCar_keeps_saved (fuel : nat) (img : Mat Vec3b) (newWidth newHeight : Z) (w : world) :
  saved (seamCar bgr2gray fuel img newWidth newHeight w).1 = saved w.
Proof.
  unfold seamCar. destruct ((rows img <=? newHeight) || (cols img <=? newWidth)); [done|].
  by destruct (while fuel _ (width_step bgr2gray) img).
Qed.

(** X9.  Given an image path, a decodable image with all its pixels and
    an accepted target, main hands the codec an image of exactly the
    requested dimensions; when the codec succeeds, that image is what is
    saved, nothing but the two prompts was printed and main returns 0;
    when the codec fails nothing is saved, the error is printed and main
    returns -1. *)
Theorem main_saves_target_dimensions (fuel : nat) (argv : list string)
    (imread : string → Mat Vec3b) (imwrite : string → Mat Vec3b → bool) (cin_w cin_h : Z) :
  let img := imread (default EmptyString (argv !! 1%nat)) in
  (2 ≤ length argv)%nat →
  Mat_full img →
  1 ≤ cin_w < cols img → 1 ≤ cin_h < rows img →
  cols img - cin_w ≤ Z.of_nat fuel → rows img - cin_h ≤ Z.of_nat fuel →
  ∃ out,
    cols out = cin_w ∧ rows out = cin_h ∧
    main bgr2gray fuel argv imread imwrite cin_w cin_h
    = if imwrite "resizeImg.jpeg" out
      then (mkWorld "Enter new width: Enter new height: " (Some out), Returns 0)
      else (mkWorld ("Enter new width: Enter new height: Error: not save that size"
                       +:+ newline) None,
            Returns (-1)).
Proof.
  intros img Hargc Hfull Hw Hh Hfw Hfh.
  destruct (seamCar_spec bgr2gray fuel img cin_w cin_h
              (print "Enter new height: " (print "Enter new width: " (mkWorld EmptyString None)))
              Hfull Hw Hh Hfw Hfh) as (out & Hrun & _ & Hc & Hr).
  exists out. split; [done|]. split; [done|].
  unfold main. fold img.
  replace (Z.of_nat (length argv) <? 2) with false by lia.
  replace (Mat_empty img) with false
    by (symmetry; unfold Mat_empty; apply orb_false_intro; lia).
  rewrite Hrun. by destruct (imwrite "resizeImg.jpeg" out).
Qed.

(** X10.  Whatever its arguments, the codec and the numbers typed, main
    leaves an image saved exactly when it returns 0. *)
Theorem main_saved_iff_returns_0 (fuel : nat) (argv : list string)
    (imread : string → Mat Vec3b) (imwrite : string → Mat Vec3b → bool) (cin_w cin_h : Z) :
  is_Some (saved (main bgr2gray fuel argv imread imwrite cin_w cin_h).1)
  ↔ (main bgr2gray fuel argv imread imwrite cin_w cin_h).2 = Returns 0.
Proof.
  unfold main.
  destruct (Z.of_nat (length argv) <? 2).
  { simpl. split; [intros [? ?]; done|done]. }
  destruct (Mat_empty _).
  { simpl. split; [intros [? ?]; done|done]. }
  match goal with |- context [seamCar bgr2gray fuel ?img cin_w cin_h ?w] =>
    pose proof (seamCar_keeps_saved fuel img cin_w cin_h w) as Hkeep;
    destruct (seamCar bgr2gray fuel img cin_w cin_h w) as [w' o]
  end.
  simpl in Hkeep.
  destruct o as [out|code| |]; simpl.
  - destruct (imwrite "resizeImg.jpeg" out); simpl.
    + split; [done|by eexists].
    + rewrite Hkeep. split; [intros [? ?]; done|done].
  - rewrite Hkeep. split; [intros [? ?]; done|done].
  - rewrite Hkeep. split; [intros [? ?]; done|done].
  - rewrite Hkeep. split; [intros [? ?]; done|done].
Qed.
End MainFacts.

Lemma main_saves_target_dimensions_witness :
  ∃ out,
    cols out = 3 ∧ rows out = 2 ∧
    main luma 2 ["seam"; "in.png"]%string (λ _, image_5x4) (λ _ _, true) 3 2
    = if (λ _ _, true) "resizeImg.jpeg"%string out
      then (mkWorld "Enter new width: Enter new height: " (Some out), Returns 0)
      else (mkWorld ("Enter new width: Enter new height: Error: not save that size"
                       +:+ newline) None,
            Returns (-1)).
Proof.
  apply (main_saves_target_dimensions luma 2 ["seam"; "in.png"]%string
           (λ _, image_5x4) (λ _ _, true) 3 2);
    [simpl; lia | exact image_5x4_full | simpl; lia | simpl; lia | simpl; lia | simpl; lia].
Defined.

Lemma seamCar_uniform_witness :
  ∃ out,
    seamCar luma 1 (uniform 3 4 (gray 128)) 3 2 fresh = (fresh, Returns out) ∧
    cols out = 3 ∧ rows out = 2 ∧
    ∀ i j, 0 ≤ i < 2 → 0 ≤ j < 3 → Mat_at out i j = Some (gray 128).
Proof.
  apply (seamCar_uniform luma 1 3 4 (gray 128) 3 2 fresh); simpl; lia.
Defined.
